(** * com.unity.logging native shim: Spinlock.cpp, DotsRuntimePrintWrapper.cpp,
      TimeStamp.cpp

    A shallow embedding of the three translation units under [Runtime/cpp~]
    and the properties of their exported operations.

    - [Spinlock]      the handle-indexed table of [std::atomic_flag]s
    - [PrintWrapper]  [ConsoleWrite] and the batching controls over [stdout]
    - [TimeStamp]     the two [snprintf]-based timestamp formatters *)

From Stdlib Require Import ZArith Lia Bool Ascii String Decimal DecimalString.
From stdpp Require Import base option list gmap.

Local Open Scope Z_scope.

(** ** Fixed-width integers *)

Definition INT64_MAX : Z := 2 ^ 63 - 1.
Definition INT64_MIN : Z := - 2 ^ 63.
Definition INT_MAX : Z := 2 ^ 31 - 1.

(** Two's-complement reduction to [w] bits.  Overflow of a signed integer is
    undefined in C++; every target of this library wraps, and the lemmas that
    depend on a counter say how far it may run. *)
Definition wrap (w : Z) (z : Z) : Z := (z + 2 ^ (w - 1)) mod 2 ^ w - 2 ^ (w - 1).
Definition wrap64 : Z -> Z := wrap 64.
Definition wrap32 : Z -> Z := wrap 32.

(** * Spinlock.cpp *)

Module Spinlock.

(** The two file-scope statics:
    [static std::unordered_map<int64_t, std::atomic_flag> s_SpinLockMap(3);]
    [static int64_t s_NextKey(1);]
    An [atomic_flag] is [true] when set (locked), [false] when clear. *)
Record Registry : Type := mkRegistry {
  s_SpinLockMap : gmap Z bool;
  s_NextKey : Z
}.

Definition process_start : Registry :=
  {| s_SpinLockMap := ∅; s_NextKey := 1 |}.

(** What a call can do: return a value, leaving the statics in some state;
    reach [std::terminate()]; or still be spinning when the fuel given to the
    [while] loop of [LockImpl] has run out. *)
Inductive Outcome (A : Type) : Type :=
  | Returned (v : A) (r : Registry)
  | Terminated
  | Spinning.
Arguments Returned {A} v r.
Arguments Terminated {A}.
Arguments Spinning {A}.

Definition M (A : Type) : Type := Registry -> Outcome A.

Definition ret {A} (v : A) : M A := fun r => Returned v r.

Definition bind {A B} (m : M A) (k : A -> M B) : M B :=
  fun r =>
    match m r with
    | Returned v r' => k v r'
    | Terminated => Terminated
    | Spinning => Spinning
    end.

Declare Scope spin_scope.
Delimit Scope spin_scope with spin.
Notation "x <- m ;; k" := (bind m (fun x => k))
  (at level 100, m at next level, right associativity) : spin_scope.
Notation "m ;;; k" := (bind m (fun _ => k))
  (at level 100, right associativity) : spin_scope.
Local Open Scope spin_scope.

(** [std::terminate()] *)
Definition terminate {A} : M A := fun _ => Terminated.

(** [s_NextKey++] *)
Definition incr_NextKey : M unit :=
  fun r => Returned tt {| s_SpinLockMap := s_SpinLockMap r;
                          s_NextKey := wrap64 (s_NextKey r + 1) |}.

Definition read_NextKey : M Z := fun r => Returned (s_NextKey r) r.

(** [s_SpinLockMap.emplace(piecewise_construct, key, ())]: inserts a
    value-initialised (clear) flag, unless the key is already present, in
    which case the table is left as it is. *)
Definition emplace (key : Z) : M unit :=
  fun r =>
    match s_SpinLockMap r !! key with
    | Some _ => Returned tt r
    | None => Returned tt {| s_SpinLockMap := <[key := false]> (s_SpinLockMap r);
                             s_NextKey := s_NextKey r |}
    end.

(** [s_SpinLockMap.erase(handle)] *)
Definition erase (handle : Z) : M unit :=
  fun r => Returned tt {| s_SpinLockMap := delete handle (s_SpinLockMap r);
                          s_NextKey := s_NextKey r |}.

(** A [std::atomic_flag&] into the table is the key of its slot. *)
Abbreviation FlagRef := Z.

(** [flag.test_and_set(std::memory_order_acquire)] *)
Definition test_and_set (flag : FlagRef) : M bool :=
  fun r =>
    Returned (default false (s_SpinLockMap r !! flag))
             {| s_SpinLockMap := alter (fun _ => true) flag (s_SpinLockMap r);
                s_NextKey := s_NextKey r |}.

(** [flag.clear(std::memory_order_release)] *)
Definition clear (flag : FlagRef) : M unit :=
  fun r =>
    Returned tt {| s_SpinLockMap := alter (fun _ => false) flag (s_SpinLockMap r);
                   s_NextKey := s_NextKey r |}.

Definition RetrieveLockFromHandle (handle : Z) : M FlagRef :=
  fun r =>
    match s_SpinLockMap r !! handle with
    | None => terminate r
    | Some _ => Returned handle r
    end.

Definition CreateSpinLockImpl : M Z :=
  incr_NextKey ;;;
  key <- read_NextKey ;;
  emplace key ;;;
  ret key.

(** [while (RetrieveLockFromHandle(handle).test_and_set(acquire)) ;]
    One unit of fuel pays for one evaluation of the loop condition. *)
Fixpoint LockImpl (fuel : nat) (handle : Z) : M bool :=
  match fuel with
  | O => fun _ => Spinning
  | S fuel' =>
      flag <- RetrieveLockFromHandle handle ;;
      was_set <- test_and_set flag ;;
      if was_set then LockImpl fuel' handle else ret true
  end.

Definition TryLockImpl (handle : Z) : M bool :=
  flag <- RetrieveLockFromHandle handle ;;
  was_set <- test_and_set flag ;;
  ret (eqb was_set false).

Definition UnlockImpl (handle : Z) : M unit :=
  flag <- RetrieveLockFromHandle handle ;;
  clear flag.

Definition DestroySpinLockImpl (handle : Z) : M unit :=
  erase handle.

(** The exported functions choose their body with [#if !defined(__EMSCRIPTEN__)]. *)
Inductive Build : Type := Native | Emscripten.

Definition CreateSpinLock (b : Build) : M Z :=
  match b with Native => CreateSpinLockImpl | Emscripten => ret 42 end.

Definition Lock (b : Build) (fuel : nat) (handle : Z) : M bool :=
  match b with Native => LockImpl fuel handle | Emscripten => ret true end.

Definition TryLock (b : Build) (handle : Z) : M bool :=
  match b with Native => TryLockImpl handle | Emscripten => ret true end.

Definition Unlock (b : Build) (handle : Z) : M unit :=
  match b with Native => UnlockImpl handle | Emscripten => ret tt end.

Definition DestroySpinLock (b : Build) (handle : Z) : M unit :=
  match b with Native => DestroySpinLockImpl handle | Emscripten => ret tt end.

(** ** Sequences of calls *)

Inductive Call : Type :=
  | CallCreateSpinLock
  | CallLock (handle : Z)
  | CallTryLock (handle : Z)
  | CallUnlock (handle : Z)
  | CallDestroySpinLock (handle : Z).

Inductive Value : Type :=
  | VHandle (h : Z)
  | VBool (b : bool)
  | VVoid.

Definition invoke (b : Build) (fuel : nat) (c : Call) : M Value :=
  match c with
  | CallCreateSpinLock => h <- CreateSpinLock b ;; ret (VHandle h)
  | CallLock h => ok <- Lock b fuel h ;; ret (VBool ok)
  | CallTryLock h => ok <- TryLock b h ;; ret (VBool ok)
  | CallUnlock h => Unlock b h ;;; ret VVoid
  | CallDestroySpinLock h => DestroySpinLock b h ;;; ret VVoid
  end.

(** The calls are made one after the other by a single thread; the values
    they return are collected in order. *)
Fixpoint run (b : Build) (fuel : nat) (cs : list Call) : M (list Value) :=
  match cs with
  | [] => ret []
  | c :: cs' =>
      v <- invoke b fuel c ;;
      vs <- run b fuel cs' ;;
      ret (v :: vs)
  end.

Definition is_create (c : Call) : bool :=
  match c with CallCreateSpinLock => true | _ => false end.

Definition is_create_or_destroy (c : Call) : bool :=
  match c with CallCreateSpinLock | CallDestroySpinLock _ => true | _ => false end.

(** Number of [CreateSpinLock] calls in a sequence. *)
Fixpoint creations (cs : list Call) : Z :=
  match cs with
  | [] => 0
  | c :: cs' => (if is_create c then 1 else 0) + creations cs'
  end.

(** The handles among the returned values, in order. *)
Definition handles (vs : list Value) : list Z :=
  omap (fun v => match v with VHandle h => Some h | _ => None end) vs.

(** Every key of the table has been handed out already, and the counter has
    not run past the largest [int64_t]. *)
Definition keys_issued (r : Registry) : Prop :=
  INT64_MIN <= s_NextKey r <= INT64_MAX /\
  forall k, k ∈ dom (s_SpinLockMap r) -> k <= s_NextKey r.

(** By how much a call moves the counter. *)
Definition bump (c : Call) : Z := if is_create c then 1 else 0.

(** The statics after [CreateSpinLock(); TryLock(2);] from process start:
    one token, handle 2, locked. *)
Definition one_locked_token : Registry :=
  {| s_SpinLockMap := {[ 2 := true ]}; s_NextKey := 2 |}.

End Spinlock.

(** * DotsRuntimePrintWrapper.cpp *)

Module PrintWrapper.

Import Byte.

(** ** The C library's [stdout]

    A stream has a buffering mode and a buffer size (both set by [setvbuf]),
    the bytes accepted but not yet handed to the device, and the bytes the
    device has received so far. *)
Inductive BufMode : Type := IOFBF | IOLBF | IONBF.

Record Stream : Type := mkStream {
  mode : BufMode;
  capacity : Z;
  pending : list byte;
  delivered : list byte
}.

(** Everything written to the stream so far, in order. *)
Definition written (s : Stream) : list byte := delivered s ++ pending s.

Section Stdio.

(** When a buffered stream hands bytes to the device is the C library's
    business: after a write it passes on some prefix of what is pending.
    [drain m cap p] says how many of the pending bytes [p] go out. *)
Variable drain : BufMode -> Z -> list byte -> nat.

Definition fputs (bytes : list byte) (s : Stream) : Stream :=
  let p := pending s ++ bytes in
  let k := drain (mode s) (capacity s) p in
  {| mode := mode s; capacity := capacity s;
     pending := drop k p; delivered := delivered s ++ take k p |}.

Definition fflush (s : Stream) : Stream :=
  {| mode := mode s; capacity := capacity s;
     pending := []; delivered := delivered s ++ pending s |}.

(** [setvbuf(stream, buf, mode, n)]: what was pending in the old buffer is
    written out before the new one is installed. *)
Definition setvbuf (m : BufMode) (n : Z) (s : Stream) : Stream :=
  {| mode := m; capacity := n;
     pending := []; delivered := delivered s ++ pending s |}.

(** ** printf conversions *)

Definition is_nul (c : byte) : bool := Byte.eqb c x00.

(** [%.*s]: the bytes of the argument up to, not including, the first zero
    byte, and no more than the precision when one is given.  A negative
    precision counts as none.  [None] when the conversion would read past the
    bytes that are readable at the pointer. *)
Fixpoint conv_s (precision : option nat) (mem : list byte) : option (list byte) :=
  match precision with
  | Some O => Some []
  | _ =>
      match mem with
      | [] => None
      | c :: mem' =>
          if is_nul c then Some []
          else cons c <$> conv_s (Nat.pred <$> precision) mem'
      end
  end.

Definition precision_of (numBytes : Z) : option nat :=
  if numBytes <? 0 then None else Some (Z.to_nat numBytes).

(** The second [%s] argument: a line feed when [newLine] is not zero, the
    empty string when it is. *)
Definition line_end (newLine : Z) : list byte :=
  if newLine =? 0 then [] else [x0a].

(** [printf] with the format [%.*s%s], the precision [numBytes], the string
    at [byteBuffer] and the line end.  [byteBuffer] stands for the bytes
    readable at the pointer; [None] when [printf] would read past them. *)
Definition ConsoleWrite (byteBuffer : list byte) (numBytes : Z) (newLine : Z)
    (stdout : Stream) : option Stream :=
  text ← conv_s (precision_of numBytes) byteBuffer;
  Some (fputs (text ++ line_end newLine) stdout).

(** [const size_t n = 8192; static char buf[n]; setvbuf(stdout, buf, _IOFBF, n);] *)
Definition BeginBatchConsoleWrite (stdout : Stream) : Stream :=
  let n := 8192 in
  setvbuf IOFBF n stdout.

Definition Flush (stdout : Stream) : Stream := fflush stdout.

Definition EndBatchConsoleWrite (stdout : Stream) : Stream := Flush stdout.

(** ** Sequences of writes *)

Record WriteCall : Type := mkWrite {
  w_buffer : list byte;
  w_numBytes : Z;
  w_newLine : Z
}.

Fixpoint console_writes (ws : list WriteCall) (stdout : Stream) : option Stream :=
  match ws with
  | [] => Some stdout
  | w :: ws' =>
      stdout' ← ConsoleWrite (w_buffer w) (w_numBytes w) (w_newLine w) stdout;
      console_writes ws' stdout'
  end.

(** The same writes with no stream in between: each call's bytes go to the
    device as the call is made. *)
Fixpoint unbuffered_writes (ws : list WriteCall) (device : list byte)
    : option (list byte) :=
  match ws with
  | [] => Some device
  | w :: ws' =>
      text ← conv_s (precision_of (w_numBytes w)) (w_buffer w);
      unbuffered_writes ws' (device ++ text ++ line_end (w_newLine w))
  end.

End Stdio.

(** The bytes of a buffer before its first zero byte. *)
Fixpoint before_nul (mem : list byte) : list byte :=
  match mem with
  | [] => []
  | c :: mem' => if is_nul c then [] else c :: before_nul mem'
  end.

(** A usual policy, for running examples: an unbuffered stream passes
    everything on, a line-buffered one everything up to its last newline (or
    everything once the buffer is full), a fully buffered one nothing until
    the buffer is full. *)
Fixpoint after_last_newline (p : list byte) : nat :=
  match p with
  | [] => 0%nat
  | c :: p' =>
      let k := after_last_newline p' in
      if (0 <? k)%nat then S k else if Byte.eqb c x0a then 1%nat else 0%nat
  end.

Definition drain_usual (m : BufMode) (cap : Z) (p : list byte) : nat :=
  match m with
  | IONBF => length p
  | IOLBF => if cap <=? Z.of_nat (length p) then length p else after_last_newline p
  | IOFBF => if cap <=? Z.of_nat (length p) then length p else 0%nat
  end.

(** [stdout] of a process attached to a terminal, before any output. *)
Definition stdout_at_start : Stream :=
  {| mode := IOLBF; capacity := 1024; pending := []; delivered := [] |}.

End PrintWrapper.

(** * TimeStamp.cpp *)

Module TimeStamp.

(** [struct tm], the fields the formatters read. *)
Record tm : Type := mkTm {
  tm_sec : Z;
  tm_min : Z;
  tm_hour : Z;
  tm_mday : Z;
  tm_mon : Z;
  tm_year : Z
}.

(** What a formatter can do: return, leaving the caller's buffer in some
    state; read through the null pointer [localtime] gave back; or have
    [snprintf] store bytes beyond the end of the caller's buffer. *)
Inductive Result (A : Type) : Type :=
  | Done (v : A) (buffer : list ascii)
  | NullDereference
  | BufferOverrun.
Arguments Done {A} v buffer.
Arguments NullDereference {A}.
Arguments BufferOverrun {A}.

Definition NUL : ascii := "000"%char.

(** ** printf conversions *)

Definition digits (n : Z) : list ascii :=
  list_ascii_of_string (NilZero.string_of_uint (N.to_uint (Z.to_N n))).

(** [%.Pd]: a minus sign for a negative value, then the decimal digits of its
    magnitude, with zeros in front up to [P] digits; no digit at all for the
    value 0 with precision 0. *)
Definition conv_d (precision : nat) (v : Z) : list ascii :=
  let ds := if (v =? 0) && (precision =? 0)%nat then [] else digits (Z.abs v) in
  (if v <? 0 then ["-"%char] else [])
    ++ repeat "0"%char (precision - length ds) ++ ds.

(** ["%.4d-%.2d-%.2d %.2d:%.2d:%.2d,%.3d"] *)
Definition format_timestamp (year mon mday hour min sec msec : Z) : list ascii :=
  conv_d 4 year ++ ["-"%char] ++ conv_d 2 mon ++ ["-"%char] ++ conv_d 2 mday
    ++ [" "%char] ++ conv_d 2 hour ++ [":"%char] ++ conv_d 2 min
    ++ [":"%char] ++ conv_d 2 sec ++ [","%char] ++ conv_d 3 msec.

(** ["%.4d%.2d%.2d%.2d%.2d"] *)
Definition format_filename (year mon mday hour min : Z) : list ascii :=
  conv_d 4 year ++ conv_d 2 mon ++ conv_d 2 mday ++ conv_d 2 hour ++ conv_d 2 min.

(** The C string held by a buffer: its characters before the first NUL. *)
Fixpoint c_str (buffer : list ascii) : list ascii :=
  match buffer with
  | [] => []
  | c :: buffer' => if Ascii.eqb c NUL then [] else c :: c_str buffer'
  end.

Definition is_digit (c : ascii) : bool :=
  match c with
  | "0" | "1" | "2" | "3" | "4" | "5" | "6" | "7" | "8" | "9" => true
  | _ => false
  end%char.

Definition digit_or_minus (c : ascii) : Prop :=
  is_digit c = true \/ c = "-"%char.

Definition timestamp_char (c : ascii) : Prop :=
  digit_or_minus c \/ c = " "%char \/ c = ":"%char \/ c = ","%char.

(** Characters that file systems refuse in a file name, and the space:
    colon, space, slash, backslash, star, question mark, double quote, less
    than, greater than, bar. *)
Definition unsafe_in_filename : list ascii :=
  [":"; " "; "/"; "092"; "*"; "?"; "034"; "<"; ">"; "|"]%char.

Section Platform.

(** [localtime]: the calendar fields of a [time_t], or [None] for the null
    pointer the C library returns when it cannot convert the value. *)
Variable localtime : Z -> option tm.

(** Whether the C library's [snprintf] refuses a size above [INT_MAX] (POSIX:
    EOVERFLOW, a negative return) or accepts it. *)
Variable snprintf_checks_size : bool.

(** An [int] passed where a [size_t] is expected. *)
Definition to_size_t (n : Z) : Z := n mod 2 ^ 64.

(** [snprintf(buffer, n, format, ...)] where [text] is what the conversions
    produce: stores at most [n - 1] characters of it and a NUL, nothing when
    [n] is zero, and returns the length of the whole text. *)
Definition snprintf (buffer : list ascii) (n : Z) (text : list ascii) : Result Z :=
  if snprintf_checks_size && (INT_MAX <? n) then Done (-1) buffer
  else if n =? 0 then Done (Z.of_nat (length text)) buffer
  else
    let stored := take (Z.to_nat (n - 1)) text ++ [NUL] in
    if (length buffer <? length stored)%nat then BufferOverrun
    else Done (Z.of_nat (length text)) (stored ++ drop (length stored) buffer).

(** [ts] is read back through a [const time_t*]: [time_t] is taken to be 64
    bits wide, as [int64_t] is.  [/] and [%] on [int64_t] truncate towards
    zero ([Z.quot], [Z.rem]).  The arguments of [snprintf] read the fields of
    [*tptr] without a test of [tptr]. *)
Definition GetFormattedTimeStampString (tsNano : Z) (buffer : list ascii)
    (bufferSize : Z) : Result Z :=
  let ts := Z.quot tsNano 1000000000 in
  let tsMSec := wrap32 (Z.quot (Z.rem tsNano 1000000000) 1000000) in
  match localtime ts with
  | None => NullDereference
  | Some tptr =>
      match snprintf buffer (to_size_t bufferSize)
              (format_timestamp
                 (wrap32 (tm_year tptr + 1900))
                 (wrap32 (tm_mon tptr + 1))
                 (tm_mday tptr)
                 (tm_hour tptr)
                 (tm_min tptr)
                 (tm_sec tptr)
                 tsMSec) with
      | Done length buffer' => Done (if length <? 0 then 0 else length) buffer'
      | NullDereference => NullDereference
      | BufferOverrun => BufferOverrun
      end
  end.

Definition GetFormattedTimeStampStringForFileNameNative (tsNano : Z)
    (buffer : list ascii) (bufferSize : Z) : Result Z :=
  let ts := Z.quot tsNano 1000000000 in
  match localtime ts with
  | None => NullDereference
  | Some tptr =>
      match snprintf buffer (to_size_t bufferSize)
              (format_filename
                 (wrap32 (tm_year tptr + 1900))
                 (wrap32 (tm_mon tptr + 1))
                 (tm_mday tptr)
                 (tm_hour tptr)
                 (tm_min tptr)) with
      | Done length buffer' => Done (if length <? 0 then 0 else length) buffer'
      | NullDereference => NullDereference
      | BufferOverrun => BufferOverrun
      end
  end.

(** The text the two formatters hand to [snprintf] for given calendar fields. *)
Definition timestamp_text (tptr : tm) (tsNano : Z) : list ascii :=
  format_timestamp (wrap32 (tm_year tptr + 1900)) (wrap32 (tm_mon tptr + 1))
    (tm_mday tptr) (tm_hour tptr) (tm_min tptr) (tm_sec tptr)
    (wrap32 (Z.quot (Z.rem tsNano 1000000000) 1000000)).

Definition filename_text (tptr : tm) : list ascii :=
  format_filename (wrap32 (tm_year tptr + 1900)) (wrap32 (tm_mon tptr + 1))
    (tm_mday tptr) (tm_hour tptr) (tm_min tptr).

(** A call given a buffer of [bufferSize] bytes, fewer than [text] has
    characters, returned the length of [text] all the same: the length is
    positive, the bytes from [bufferSize] on are as they were, and what the
    buffer holds as a string is only the first [bufferSize - 1] characters of
    [text], or the buffer is untouched when [bufferSize] is 0. *)
Definition returns_length_of_unstored_text (outcome : Result Z)
    (text buffer : list ascii) (bufferSize : Z) : Prop :=
  exists buffer',
    outcome = Done (Z.of_nat (length text)) buffer' /\
    0 < Z.of_nat (length text) /\
    drop (Z.to_nat bufferSize) buffer' = drop (Z.to_nat bufferSize) buffer /\
    (bufferSize = 0 -> buffer' = buffer) /\
    (0 < bufferSize ->
       c_str buffer' = take (Z.to_nat (bufferSize - 1)) text /\
       c_str buffer' <> text).

End Platform.

(** ** Two C libraries, for running the formatters

    Both compute calendar fields for the UTC zone from the count of days
    since 1970-01-01 (proleptic Gregorian calendar). *)
Definition civil_from_days (days : Z) : Z * Z * Z :=
  let z := days + 719468 in
  let era := z / 146097 in
  let doe := z mod 146097 in
  let yoe := (doe - doe / 1460 + doe / 36524 - doe / 146096) / 365 in
  let doy := doe - (365 * yoe + yoe / 4 - yoe / 100) in
  let mp := (5 * doy + 2) / 153 in
  let d := doy - (153 * mp + 2) / 5 + 1 in
  let m := if mp <? 10 then mp + 3 else mp - 9 in
  let y := yoe + era * 400 + (if m <=? 2 then 1 else 0) in
  (y, m, d).

Definition utc_fields (t : Z) : tm :=
  let '(y, m, d) := civil_from_days (t / 86400) in
  let secs := t mod 86400 in
  {| tm_sec := secs mod 60; tm_min := (secs mod 3600) / 60; tm_hour := secs / 3600;
     tm_mday := d; tm_mon := m - 1; tm_year := y - 1900 |}.

(** A library that converts every [time_t] whose year fits an [int]. *)
Definition localtime_utc (t : Z) : option tm :=
  let f := utc_fields t in
  if (- 2 ^ 31 <=? tm_year f) && (tm_year f <=? INT_MAX) then Some f else None.

(** A library that returns a null pointer for a time before 1970-01-01
    00:00:00 or after 3000-12-31 23:59:59, as the Microsoft C runtime
    documents for [localtime]. *)
Definition localtime_crt (t : Z) : option tm :=
  if (t <? 0) || (32535215999 <? t) then None else Some (utc_fields t).

End TimeStamp.

(** * Further notions for stating properties *)

Module SpinlockCalls.

Import Spinlock.

(** A call that tries to take the token [h]: [Lock(h)] or [TryLock(h)]. *)
Definition acquires (h : Z) (c : Call) : Prop :=
  c = CallLock h \/ c = CallTryLock h.

(** A call that gives the token [h] up: [Unlock(h)] or [DestroySpinLock(h)]. *)
Definition releases (h : Z) (c : Call) : Prop :=
  c = CallUnlock h \/ c = CallDestroySpinLock h.

(** The statics after [CreateSpinLock();] from process start: one token,
    handle 2, free. *)
Definition one_free_token : Registry :=
  {| s_SpinLockMap := {[ 2 := false ]}; s_NextKey := 2 |}.


End SpinlockCalls.

Module ConsoleCalls.

Import Byte.
Import PrintWrapper.

#[global] Instance byte_eq_decision : EqDecision byte := Byte.byte_eq_dec.

(** The four exported functions of the console writer, as calls. *)
Inductive ConsoleCall : Type :=
  | CallConsoleWrite (w : WriteCall)
  | CallBeginBatchConsoleWrite
  | CallFlush
  | CallEndBatchConsoleWrite.

Section Stdio.

Variable drain : BufMode -> Z -> list byte -> nat.

Definition console_call (c : ConsoleCall) (stdout : Stream) : option Stream :=
  match c with
  | CallConsoleWrite w =>
      ConsoleWrite drain (w_buffer w) (w_numBytes w) (w_newLine w) stdout
  | CallBeginBatchConsoleWrite => Some (BeginBatchConsoleWrite stdout)
  | CallFlush => Some (Flush stdout)
  | CallEndBatchConsoleWrite => Some (EndBatchConsoleWrite stdout)
  end.

Fixpoint console_calls (cs : list ConsoleCall) (stdout : Stream) : option Stream :=
  match cs with
  | [] => Some stdout
  | c :: cs' =>
      stdout' ← console_call c stdout;
      console_calls cs' stdout'
  end.

End Stdio.

(** The writes among a sequence of calls, in order. *)
Definition writes_of (cs : list ConsoleCall) : list WriteCall :=
  omap (fun c => match c with CallConsoleWrite w => Some w | _ => None end) cs.

End ConsoleCalls.

Module TimeStampRanges.

Import TimeStamp.

(** Calendar fields as [localtime] gives them for the years 0 to 9999:
    [tm_year] counts from 1900, [tm_mon] from 0, [tm_sec] allows for a leap
    second. *)
Definition in_calendar_range (tptr : tm) : Prop :=
  -1900 <= tm_year tptr <= 8099 /\
  0 <= tm_mon tptr <= 11 /\
  1 <= tm_mday tptr <= 31 /\
  0 <= tm_hour tptr <= 23 /\
  0 <= tm_min tptr <= 59 /\
  0 <= tm_sec tptr <= 60.

(** [conv_d p v] is exactly [p] characters, all of them digits. *)
Definition prints_as_digits (p : nat) (v : Z) : bool :=
  (length (conv_d p v) =? p)%nat && forallb is_digit (conv_d p v).

(** [conv_d p v] is a minus sign and then exactly [p] digits. *)
Definition prints_as_minus_digits (p : nat) (v : Z) : bool :=
  match conv_d p v with
  | c :: ds => Ascii.eqb c "-"%char && (length ds =? p)%nat && forallb is_digit ds
  | [] => false
  end.

(** A call given a buffer of [bufferSize] bytes, at least one, returned the
    length of [text]; the buffer has the size it had, holds as a string the
    first [bufferSize - 1] characters of [text], all of [text] when that
    many fit, and is unchanged from byte [bufferSize] on. *)
Definition stores_text_within (outcome : Result Z)
    (text buffer : list ascii) (bufferSize : Z) : Prop :=
  exists buffer',
    outcome = Done (Z.of_nat (length text)) buffer' /\
    length buffer' = length buffer /\
    c_str buffer' = take (Z.to_nat (bufferSize - 1)) text /\
    drop (Z.to_nat bufferSize) buffer' = drop (Z.to_nat bufferSize) buffer /\
    (Z.of_nat (length text) < bufferSize -> c_str buffer' = text).

End TimeStampRanges.

(** * Facts *)

Lemma wrap64_small z : INT64_MIN <= z <= INT64_MAX -> wrap64 z = z.
Proof.
  unfold wrap64, wrap, INT64_MIN, INT64_MAX. intros H.
  rewrite Z.mod_small; lia.
Qed.

Lemma wrap32_small z : - 2 ^ 31 <= z <= INT_MAX -> wrap32 z = z.
Proof.
  unfold wrap32, wrap, INT_MAX. intros H.
  rewrite Z.mod_small; lia.
Qed.

(** ** The lock registry *)

Module SpinlockFacts.

Import Spinlock.
Local Open Scope spin_scope.

Ltac unfold_calls :=
  unfold CreateSpinLock, Lock, TryLock, Unlock, DestroySpinLock,
    CreateSpinLockImpl, TryLockImpl, UnlockImpl, DestroySpinLockImpl,
    RetrieveLockFromHandle, incr_NextKey, read_NextKey, emplace, erase,
    test_and_set, clear, terminate, bind, ret in *.

Lemma keys_issued_start : keys_issued process_start.
Proof.
  split; [unfold INT64_MIN, INT64_MAX; simpl; lia |].
  simpl. intros k Hk. rewrite dom_empty_L in Hk. set_solver.
Qed.

Lemma next_key_unused r :
  keys_issued r -> s_SpinLockMap r !! (s_NextKey r + 1) = None.
Proof.
  intros [_ Hk]. apply not_elem_of_dom. intros Hin. apply Hk in Hin. lia.
Qed.

Lemma registry_eta r :
  {| s_SpinLockMap := s_SpinLockMap r; s_NextKey := s_NextKey r |} = r.
Proof. by destruct r. Qed.

(** Storing into a slot that exists is an insertion at its key. *)
Lemma alter_set (m : gmap Z bool) (h : Z) (b v : bool) :
  m !! h = Some b -> alter (fun _ => v) h m = <[h := v]> m.
Proof.
  intros Hh. apply map_eq. intros k.
  destruct (decide (h = k)) as [->|Hne].
  - by rewrite lookup_alter_eq, lookup_insert_eq, Hh.
  - by rewrite lookup_alter_ne, lookup_insert_ne.
Qed.

(** *** One call at a time *)

Lemma CreateSpinLockImpl_fresh r :
  keys_issued r -> s_NextKey r < INT64_MAX ->
  CreateSpinLockImpl r =
    Returned (s_NextKey r + 1)
      {| s_SpinLockMap := <[s_NextKey r + 1 := false]> (s_SpinLockMap r);
         s_NextKey := s_NextKey r + 1 |}.
Proof.
  intros Hinv Hlt. pose proof (next_key_unused r Hinv) as Hnone.
  destruct Hinv as [Hrange _].
  unfold_calls. simpl.
  rewrite wrap64_small by lia. by rewrite Hnone.
Qed.

Lemma TryLockImpl_present r h b :
  s_SpinLockMap r !! h = Some b ->
  TryLockImpl h r =
    Returned (negb b)
      {| s_SpinLockMap := <[h := true]> (s_SpinLockMap r);
         s_NextKey := s_NextKey r |}.
Proof.
  intros Hh. unfold_calls. rewrite Hh. simpl. rewrite Hh. simpl.
  rewrite (alter_set _ _ _ _ Hh). by destruct b.
Qed.

Lemma UnlockImpl_present r h b :
  s_SpinLockMap r !! h = Some b ->
  UnlockImpl h r =
    Returned tt
      {| s_SpinLockMap := <[h := false]> (s_SpinLockMap r);
         s_NextKey := s_NextKey r |}.
Proof.
  intros Hh. unfold_calls. rewrite Hh. simpl.
  by rewrite (alter_set _ _ _ _ Hh).
Qed.

Lemma LockImpl_absent fuel r h :
  s_SpinLockMap r !! h = None -> LockImpl (S fuel) h r = Terminated.
Proof. intros Hh. simpl. unfold_calls. by rewrite Hh. Qed.

Lemma LockImpl_clear fuel r h :
  s_SpinLockMap r !! h = Some false ->
  LockImpl (S fuel) h r =
    Returned true
      {| s_SpinLockMap := <[h := true]> (s_SpinLockMap r);
         s_NextKey := s_NextKey r |}.
Proof.
  intros Hh. simpl. unfold_calls. rewrite Hh. simpl. rewrite Hh. simpl.
  by rewrite (alter_set _ _ _ _ Hh).
Qed.

(** With nobody else to clear it, a set flag keeps [LockImpl] in its loop. *)
Lemma LockImpl_set_spins fuel r h :
  s_SpinLockMap r !! h = Some true -> LockImpl fuel h r = Spinning.
Proof.
  revert r. induction fuel as [|fuel IH]; intros r Hh; [done |].
  simpl. unfold bind at 1. unfold RetrieveLockFromHandle. rewrite Hh.
  unfold bind at 1. unfold test_and_set. rewrite Hh. simpl.
  apply IH. simpl. by rewrite lookup_alter_eq, Hh.
Qed.

(** A call that returns leaves the counter alone unless it is a creation,
    and never puts a key above the counter into the table. *)
Lemma LockImpl_returns fuel r h v r' :
  LockImpl fuel h r = Returned v r' ->
  s_NextKey r' = s_NextKey r /\ dom (s_SpinLockMap r') = dom (s_SpinLockMap r).
Proof.
  revert r. induction fuel as [|fuel IH]; intros r; [done |].
  simpl. unfold bind at 1. unfold RetrieveLockFromHandle.
  destruct (s_SpinLockMap r !! h) as [b|] eqn:Hh; [|done].
  unfold bind at 1. unfold test_and_set. rewrite Hh. simpl.
  destruct b.
  - intros Hret. apply IH in Hret. simpl in Hret.
    by rewrite dom_alter_L in Hret.
  - unfold ret. intros [= _ <-]. simpl. by rewrite dom_alter_L.
Qed.

Lemma invoke_returns fuel c r v r' :
  keys_issued r -> s_NextKey r + bump c <= INT64_MAX ->
  invoke Native fuel c r = Returned v r' ->
  keys_issued r' /\ s_NextKey r' = s_NextKey r + bump c /\
  handles [v] = (if is_create c then [s_NextKey r + 1] else []).
Proof.
  intros Hinv Hle Hret. pose proof Hinv as [Hrange Hkeys].
  destruct c as [|h|h|h|h]; unfold invoke, bump in *; simpl in *.
  - unfold bind at 1 in Hret.
    rewrite CreateSpinLockImpl_fresh in Hret by (done || lia).
    unfold ret in Hret. injection Hret as <- <-. simpl.
    split_and!; [split; simpl; [lia|] | done | done].
    intros k. rewrite dom_insert_L, elem_of_union, elem_of_singleton.
    intros [->|Hk]; [lia | apply Hkeys in Hk; lia].
  - unfold bind at 1 in Hret.
    destruct (LockImpl fuel h r) as [ok r1| |] eqn:HL; [|done..].
    unfold ret in Hret. injection Hret as <- <-.
    apply LockImpl_returns in HL as [Hn Hd].
    split_and!; [split | lia | done]; rewrite ?Hn, ?Hd; [lia | done].
  - unfold bind at 1 in Hret.
    destruct (s_SpinLockMap r !! h) as [b|] eqn:Hh.
    + rewrite (TryLockImpl_present _ _ _ Hh) in Hret.
      unfold ret in Hret. injection Hret as <- <-. simpl.
      split_and!; [split; simpl; [lia|] | lia | done].
      intros k. rewrite dom_insert_L, elem_of_union, elem_of_singleton.
      intros [->|Hk]; apply Hkeys; [by apply elem_of_dom|done].
    + unfold_calls. by rewrite Hh in Hret.
  - unfold bind at 1 in Hret.
    destruct (s_SpinLockMap r !! h) as [b|] eqn:Hh.
    + rewrite (UnlockImpl_present _ _ _ Hh) in Hret.
      unfold ret in Hret. injection Hret as <- <-. simpl.
      split_and!; [split; simpl; [lia|] | lia | done].
      intros k. rewrite dom_insert_L, elem_of_union, elem_of_singleton.
      intros [->|Hk]; apply Hkeys; [by apply elem_of_dom|done].
    + unfold_calls. by rewrite Hh in Hret.
  - unfold_calls. injection Hret as <- <-. simpl.
    split_and!; [split; simpl; [lia|] | lia | done].
    intros k. rewrite dom_delete_L, elem_of_difference.
    intros [Hk _]. by apply Hkeys.
Qed.

(** *** Sequences of calls *)

Lemma bind_returned {A B} (m : M A) (k : A -> M B) r v r' :
  bind m k r = Returned v r' <->
  exists a r0, m r = Returned a r0 /\ k a r0 = Returned v r'.
Proof.
  unfold bind. destruct (m r) as [a r0| |].
  - split; [eauto |]. by intros (? & ? & [= <- <-] & ?).
  - split; [done | by intros (? & ? & ? & _)].
  - split; [done | by intros (? & ? & ? & _)].
Qed.

Lemma run_cons b fuel c cs r vs r' :
  run b fuel (c :: cs) r = Returned vs r' <->
  exists v r0 vs0,
    invoke b fuel c r = Returned v r0 /\
    run b fuel cs r0 = Returned vs0 r' /\
    vs = v :: vs0.
Proof.
  simpl. rewrite bind_returned. split.
  - intros (v & r0 & Hc & Hk). apply bind_returned in Hk as (vs0 & r1 & Hrun & Hret).
    unfold ret in Hret. injection Hret as <- <-. eauto 6.
  - intros (v & r0 & vs0 & Hc & Hrun & ->). exists v, r0. split; [done |].
    apply bind_returned. eauto.
Qed.

Lemma run_app b fuel cs1 cs2 r vs r' :
  run b fuel (cs1 ++ cs2) r = Returned vs r' <->
  exists vs1 r1 vs2,
    run b fuel cs1 r = Returned vs1 r1 /\
    run b fuel cs2 r1 = Returned vs2 r' /\
    vs = vs1 ++ vs2.
Proof.
  revert r vs. induction cs1 as [|c cs1 IH]; intros r vs.
  - simpl. split.
    + intros H. by exists [], r, vs.
    + by intros (vs1 & r1 & vs2 & [= <- <-] & H2 & ->).
  - rewrite <- app_comm_cons, run_cons. split.
    + intros (v & r0 & vs0 & Hc & Hrun & ->).
      apply IH in Hrun as (vs1 & r1 & vs2 & H1 & H2 & ->).
      exists (v :: vs1), r1, vs2. split_and!; [|done..].
      apply run_cons. eauto 6.
    + intros (vs1 & r1 & vs2 & H1 & H2 & ->).
      apply run_cons in H1 as (v & r0 & vs0 & Hc & Hrun & ->).
      exists v, r0, (vs0 ++ vs2). split_and!; [done | | done].
      apply IH. eauto 6.
Qed.

Lemma run_length b fuel cs r vs r' :
  run b fuel cs r = Returned vs r' -> length vs = length cs.
Proof.
  revert r vs. induction cs as [|c cs IH]; intros r vs.
  - by intros [= <- _].
  - intros (v & r0 & vs0 & _ & Hrun & ->)%run_cons. simpl. f_equal. eauto.
Qed.

Lemma creations_nonneg cs : 0 <= creations cs.
Proof. induction cs as [|c cs IH]; simpl; [done | destruct (is_create c); lia]. Qed.

Lemma creations_app cs1 cs2 : creations (cs1 ++ cs2) = creations cs1 + creations cs2.
Proof. induction cs1 as [|c cs1 IH]; simpl; [done | lia]. Qed.

Lemma handles_cons v vs : handles (v :: vs) = handles [v] ++ handles vs.
Proof. unfold handles. change (v :: vs) with ([v] ++ vs). apply omap_app. Qed.

Lemma handles_app vs1 vs2 : handles (vs1 ++ vs2) = handles vs1 ++ handles vs2.
Proof. apply omap_app. Qed.

(** The handles a run returns are the next values of the counter, one after
    the other. *)
Lemma run_returns fuel cs r vs r' :
  keys_issued r -> s_NextKey r + creations cs <= INT64_MAX ->
  run Native fuel cs r = Returned vs r' ->
  keys_issued r' /\ s_NextKey r' = s_NextKey r + creations cs /\
  handles vs = seqZ (s_NextKey r + 1) (creations cs).
Proof.
  revert r vs. induction cs as [|c cs IH]; intros r vs Hinv Hle.
  - intros [= <- <-]. simpl. split_and!; [done | lia | done].
  - intros (v & r0 & vs0 & Hc & Hrun & ->)%run_cons.
    pose proof (creations_nonneg cs) as Hnn. simpl in Hle. fold (bump c) in Hle.
    apply invoke_returns in Hc as (Hinv0 & Hn0 & Hv); [|done|lia].
    apply IH in Hrun as (Hinv1 & Hn1 & Hvs); [|done|lia].
    cbn [creations]. fold (bump c). split_and!; [done | lia |].
    rewrite handles_cons, Hv, Hvs, Hn0. unfold bump.
    destruct (is_create c); simpl.
    + rewrite (seqZ_cons (s_NextKey r + 1)) by lia. do 2 f_equal; lia.
    + do 2 f_equal; lia.
Qed.

(** A sequence of creations and destructions always runs to its end. *)
Lemma run_create_destroy_total fuel cs r :
  Forall (fun c => is_create_or_destroy c = true) cs ->
  exists vs r', run Native fuel cs r = Returned vs r'.
Proof.
  intros Hcd. revert r. induction Hcd as [|c cs Hc _ IH]; intros r.
  - by exists [], r.
  - assert (exists v r0, invoke Native fuel c r = Returned v r0) as (v & r0 & Hinv).
    { destruct c as [|h|h|h|h]; try discriminate Hc; simpl; unfold_calls; simpl.
      - destruct (s_SpinLockMap r !! wrap64 (s_NextKey r + 1)); eauto.
      - eauto. }
    destruct (IH r0) as (vs & r' & Hrun).
    exists (v :: vs), r'. apply run_cons. eauto 6.
Qed.

Lemma seqZ_increasing m n i j hi hj :
  (i < j)%nat -> seqZ m n !! i = Some hi -> seqZ m n !! j = Some hj -> hi < hj.
Proof. rewrite !lookup_seqZ. lia. Qed.

(** ** Properties of the registry *)

(** C1. For every sequence of [CreateSpinLock] and [DestroySpinLock] calls
    made from process start that does not run the 64-bit counter out, the run
    returns, the handles returned by [CreateSpinLock] are strictly increasing
    in call order, hence pairwise distinct, and a handle that named a token
    in the table when [DestroySpinLock] was called on it is not returned by
    that call or any later one. *)
Theorem create_handles_increasing_never_reused (fuel : nat) (cs : list Call) :
  Forall (fun c => is_create_or_destroy c = true) cs ->
  creations cs <= INT64_MAX - 1 ->
  exists vs r,
    run Native fuel cs process_start = Returned vs r /\
    (forall i j hi hj, (i < j)%nat ->
       handles vs !! i = Some hi -> handles vs !! j = Some hj -> hi < hj) /\
    NoDup (handles vs) /\
    (forall i h vs_i r_i,
       cs !! i = Some (CallDestroySpinLock h) ->
       run Native fuel (take i cs) process_start = Returned vs_i r_i ->
       h ∈ dom (s_SpinLockMap r_i) ->
       h ∉ handles (drop i vs)).
Proof.
  intros Hcd Hle.
  destruct (run_create_destroy_total fuel cs process_start Hcd) as (vs & r & Hrun).
  exists vs, r. split; [done |].
  pose proof (run_returns fuel cs process_start vs r keys_issued_start) as Hret.
  destruct Hret as (_ & _ & Hvs); [simpl; lia | done |].
  rewrite Hvs. split_and!.
  - intros i j hi hj. apply seqZ_increasing.
  - apply NoDup_seqZ.
  - intros i h vs_i r_i Hi Hpre Hlive.
    assert (Hlen : length vs_i = i).
    { apply run_length in Hpre. rewrite Hpre, length_take.
      apply lookup_lt_Some in Hi. lia. }
    rewrite <- (take_drop i cs) in Hrun, Hle.
    apply run_app in Hrun as (vs1 & r1 & vs2 & H1 & H2 & ->).
    rewrite Hpre in H1. injection H1 as <- <-.
    rewrite creations_app in Hle.
    pose proof (creations_nonneg (take i cs)).
    pose proof (creations_nonneg (drop i cs)).
    apply run_returns in Hpre as (Hinv & Hn & _);
      [| apply keys_issued_start | simpl; lia].
    simpl in Hn.
    apply run_returns in H2 as (_ & _ & Hvs2); [| done | lia].
    rewrite <- Hlen, drop_app_length, Hvs2, elem_of_seqZ.
    destruct Hinv as [_ Hkeys]. apply Hkeys in Hlive. lia.
Qed.

Lemma create_handles_increasing_never_reused_witness :
  exists vs r,
    run Native 0
      [CallCreateSpinLock; CallCreateSpinLock; CallDestroySpinLock 2;
       CallCreateSpinLock] process_start = Returned vs r /\
    (forall i j hi hj, (i < j)%nat ->
       handles vs !! i = Some hi -> handles vs !! j = Some hj -> hi < hj) /\
    NoDup (handles vs) /\
    (forall i h vs_i r_i,
       [CallCreateSpinLock; CallCreateSpinLock; CallDestroySpinLock 2;
        CallCreateSpinLock] !! i = Some (CallDestroySpinLock h) ->
       run Native 0
         (take i [CallCreateSpinLock; CallCreateSpinLock; CallDestroySpinLock 2;
                  CallCreateSpinLock]) process_start = Returned vs_i r_i ->
       h ∈ dom (s_SpinLockMap r_i) ->
       h ∉ handles (drop i vs)).
Proof.
  apply (create_handles_increasing_never_reused 0
           [CallCreateSpinLock; CallCreateSpinLock; CallDestroySpinLock 2;
            CallCreateSpinLock]).
  - repeat constructor.
  - vm_compute. discriminate.
Defined.

(** C2. A handle that is not in the table makes [Lock], [TryLock] and
    [Unlock] reach [std::terminate()]: each call ends in [Terminated], and
    [Lock] returns no value however long it is left to run. *)
Theorem unknown_handle_terminates (r : Registry) (h : Z) :
  s_SpinLockMap r !! h = None ->
  (forall fuel, Lock Native (S fuel) h r = Terminated) /\
  (forall fuel v r', Lock Native fuel h r <> Returned v r') /\
  TryLock Native h r = Terminated /\
  Unlock Native h r = Terminated.
Proof.
  intros Hh. split_and!.
  - intros fuel. by apply LockImpl_absent.
  - intros [|fuel] v r'; [done |]. unfold Lock. by rewrite LockImpl_absent.
  - unfold_calls. by rewrite Hh.
  - unfold_calls. by rewrite Hh.
Qed.

Lemma unknown_handle_terminates_witness :
  (forall fuel, Lock Native (S fuel) 7 process_start = Terminated) /\
  (forall fuel v r', Lock Native fuel 7 process_start <> Returned v r') /\
  TryLock Native 7 process_start = Terminated /\
  Unlock Native 7 process_start = Terminated.
Proof. apply (unknown_handle_terminates process_start 7). reflexivity. Defined.

(** C3. In any state reached from process start by calls that returned,
    with the counter not run out: [CreateSpinLock] puts a clear flag in the
    table under the handle it returns, and the first [TryLock] on that handle
    returns true and leaves the flag set.  Whenever a flag is set, [TryLock]
    on its handle returns false and changes nothing.  After [Unlock] on a
    handle of the table, [TryLock] on it returns true. *)
Theorem fresh_token_trylock_unlock (fuel : nat) (cs : list Call)
    (vs : list Value) (r : Registry) :
  run Native fuel cs process_start = Returned vs r ->
  creations cs < INT64_MAX - 1 ->
  (exists h r1 r2,
     CreateSpinLock Native r = Returned h r1 /\
     s_SpinLockMap r1 !! h = Some false /\
     TryLock Native h r1 = Returned true r2 /\
     s_SpinLockMap r2 !! h = Some true) /\
  (forall q h, s_SpinLockMap q !! h = Some true ->
     TryLock Native h q = Returned false q) /\
  (forall q h, is_Some (s_SpinLockMap q !! h) ->
     exists q1 q2,
       Unlock Native h q = Returned tt q1 /\
       s_SpinLockMap q1 !! h = Some false /\
       TryLock Native h q1 = Returned true q2 /\
       s_SpinLockMap q2 !! h = Some true).
Proof.
  intros Hrun Hlt. pose proof (creations_nonneg cs) as Hnn.
  apply run_returns in Hrun as (Hinv & Hn & _);
    [| apply keys_issued_start | simpl; lia].
  simpl in Hn. split_and!.
  - eexists _, _, _. split; [apply CreateSpinLockImpl_fresh; [done | lia] |].
    simpl. rewrite lookup_insert_eq. split; [done |].
    split; [apply (TryLockImpl_present _ _ false); simpl; by rewrite lookup_insert_eq |].
    simpl. by rewrite lookup_insert_eq.
  - intros q h Hq. simpl. rewrite (TryLockImpl_present _ _ true Hq). simpl.
    rewrite insert_id by done. by rewrite registry_eta.
  - intros q h [b Hq]. eexists _, _.
    split; [apply (UnlockImpl_present _ _ b Hq) |].
    simpl. rewrite lookup_insert_eq. split; [done |].
    split; [apply (TryLockImpl_present _ _ false); simpl; by rewrite lookup_insert_eq |].
    simpl. by rewrite lookup_insert_eq.
Qed.

Lemma fresh_token_trylock_unlock_witness :
  (exists h r1 r2,
     CreateSpinLock Native one_locked_token = Returned h r1 /\
     s_SpinLockMap r1 !! h = Some false /\
     TryLock Native h r1 = Returned true r2 /\
     s_SpinLockMap r2 !! h = Some true) /\
  (forall q h, s_SpinLockMap q !! h = Some true ->
     TryLock Native h q = Returned false q) /\
  (forall q h, is_Some (s_SpinLockMap q !! h) ->
     exists q1 q2,
       Unlock Native h q = Returned tt q1 /\
       s_SpinLockMap q1 !! h = Some false /\
       TryLock Native h q1 = Returned true q2 /\
       s_SpinLockMap q2 !! h = Some true).
Proof.
  apply (fresh_token_trylock_unlock 0 [CallCreateSpinLock; CallTryLock 2]
           [VHandle 2; VBool true] one_locked_token).
  - vm_compute. reflexivity.
  - vm_compute. reflexivity.
Defined.

(** C4, as the code has it.  [DestroySpinLock] on a handle that is not in
    the table returns normally and leaves the table and the counter as they
    were: [erase] of a missing key removes nothing, and [DestroySpinLockImpl]
    does not go through [RetrieveLockFromHandle]. *)
Theorem destroy_absent_handle_returns (r : Registry) (h : Z) :
  s_SpinLockMap r !! h = None ->
  DestroySpinLock Native h r = Returned tt r.
Proof.
  intros Hh. unfold_calls. rewrite delete_id by done. by rewrite registry_eta.
Qed.

Lemma destroy_absent_handle_returns_witness :
  DestroySpinLock Native 7 process_start = Returned tt process_start.
Proof. apply (destroy_absent_handle_returns process_start 7). reflexivity. Defined.

(** C4, as the claim has it, fails: handle 7 was never issued at process
    start, and handle 2 has been destroyed in the second state; in both
    [DestroySpinLock] returns. *)
Lemma destroy_unknown_handle_does_not_terminate :
  s_SpinLockMap process_start !! 7 = None /\
  DestroySpinLock Native 7 process_start = Returned tt process_start /\
  DestroySpinLock Native 7 process_start <> Terminated /\
  exists vs r,
    run Native 0 [CallCreateSpinLock; CallDestroySpinLock 2] process_start
      = Returned vs r /\
    s_SpinLockMap r !! 2 = None /\
    DestroySpinLock Native 2 r = Returned tt r.
Proof.
  split_and!; [reflexivity | reflexivity | discriminate |].
  eexists _, _. split_and!; vm_compute; reflexivity.
Qed.

(** C7. For a handle of the table, [Unlock] returns and has cleared that
    token's flag, whatever it was before; the table has the same handles, every
    other token has the flag it had, and the counter is untouched. *)
Theorem unlock_clears_only_its_token (r : Registry) (h : Z) :
  is_Some (s_SpinLockMap r !! h) ->
  exists r',
    Unlock Native h r = Returned tt r' /\
    s_SpinLockMap r' !! h = Some false /\
    dom (s_SpinLockMap r') = dom (s_SpinLockMap r) /\
    (forall k, k <> h -> s_SpinLockMap r' !! k = s_SpinLockMap r !! k) /\
    s_NextKey r' = s_NextKey r.
Proof.
  intros [b Hh]. eexists. split; [apply (UnlockImpl_present _ _ b Hh) |].
  simpl. split_and!.
  - by rewrite lookup_insert_eq.
  - by apply dom_insert_lookup_L.
  - intros k Hk. by rewrite lookup_insert_ne.
  - done.
Qed.

Lemma unlock_clears_only_its_token_witness :
  exists r',
    Unlock Native 2 one_locked_token = Returned tt r' /\
    s_SpinLockMap r' !! 2 = Some false /\
    dom (s_SpinLockMap r') = dom (s_SpinLockMap one_locked_token) /\
    (forall k, k <> 2 -> s_SpinLockMap r' !! k = s_SpinLockMap one_locked_token !! k) /\
    s_NextKey r' = s_NextKey one_locked_token.
Proof.
  apply (unlock_clears_only_its_token one_locked_token 2).
  exists true. reflexivity.
Defined.

(** Unlocking a token that is already unlocked changes nothing at all. *)
Lemma unlock_unlocked_is_identity r h :
  s_SpinLockMap r !! h = Some false -> Unlock Native h r = Returned tt r.
Proof.
  intros Hh. simpl. rewrite (UnlockImpl_present _ _ false Hh).
  rewrite insert_id by done. by rewrite registry_eta.
Qed.

(** The Emscripten build has no table: [CreateSpinLock] answers 42 every
    time, and no handle is ever refused. *)
Lemma emscripten_calls_are_constant r h fuel :
  CreateSpinLock Emscripten r = Returned 42 r /\
  Lock Emscripten fuel h r = Returned true r /\
  TryLock Emscripten h r = Returned true r /\
  Unlock Emscripten h r = Returned tt r /\
  DestroySpinLock Emscripten h r = Returned tt r.
Proof. done. Qed.

End SpinlockFacts.

(** ** The console writer *)

Module PrintWrapperFacts.

Import Byte.
Import PrintWrapper.

Section Stdio.

Variable drain : BufMode -> Z -> list byte -> nat.

(** *** The stream keeps what it is given, in order *)

Lemma written_fputs bytes s : written (fputs drain bytes s) = written s ++ bytes.
Proof.
  unfold written, fputs. simpl.
  by rewrite <- (assoc_L (++)), take_drop, (assoc_L (++)).
Qed.

Lemma written_fflush s : written (fflush s) = written s.
Proof. unfold written, fflush. simpl. by rewrite app_nil_r. Qed.

Lemma delivered_fflush s : delivered (fflush s) = written s.
Proof. done. Qed.

Lemma written_setvbuf m n s : written (setvbuf m n s) = written s.
Proof. unfold written, setvbuf. simpl. by rewrite app_nil_r. Qed.

(** *** [%.*s] *)

Lemma conv_s_readable (k : nat) (mem : list byte) :
  (k <= length mem)%nat -> conv_s (Some k) mem = Some (before_nul (take k mem)).
Proof.
  revert k. induction mem as [|c mem IH]; intros [|k] Hk; simpl in *; try done; [lia |].
  destruct (is_nul c); [done |]. rewrite IH by lia. done.
Qed.

Lemma before_nul_no_nul (mem : list byte) :
  Forall (fun c => c <> x00) mem -> before_nul mem = mem.
Proof.
  induction 1 as [|c mem Hc _ IH]; simpl; [done |].
  unfold is_nul. destruct (Byte.eqb c x00) eqn:E.
  - apply Byte.byte_dec_bl in E. done.
  - by rewrite IH.
Qed.

Lemma ConsoleWrite_written b n nl s s' :
  ConsoleWrite drain b n nl s = Some s' ->
  exists text, conv_s (precision_of n) b = Some text /\
    written s' = written s ++ text ++ line_end nl.
Proof.
  unfold ConsoleWrite. destruct (conv_s (precision_of n) b) as [text|]; [|done].
  simpl. intros [= <-]. exists text. split; [done |]. apply written_fputs.
Qed.

(** What a run of writes leaves in the stream is what the same writes send
    straight to a device that already holds the stream's contents. *)
Lemma console_writes_written ws s :
  written <$> console_writes drain ws s = unbuffered_writes ws (written s).
Proof.
  revert s. induction ws as [|w ws IH]; intros s; simpl; [done |].
  unfold ConsoleWrite.
  destruct (conv_s (precision_of (w_numBytes w)) (w_buffer w)) as [text|]; [|done].
  simpl. by rewrite IH, written_fputs.
Qed.

(** *** Properties of the console writer *)

(** C6, as the code has it.  With [n] bytes readable at [b] and [n] not
    negative, [ConsoleWrite] adds to standard output the first [n] bytes of
    [b] up to, not including, the first zero byte among them, which is all
    [n] of them when none is zero, followed by one newline byte when the flag
    is not zero and by nothing when it is. *)
Theorem ConsoleWrite_writes_text_then_newline
    (b : list byte) (n newLine : Z) (stdout : Stream) :
  0 <= n <= Z.of_nat (length b) ->
  exists stdout',
    ConsoleWrite drain b n newLine stdout = Some stdout' /\
    written stdout' =
      written stdout ++ before_nul (take (Z.to_nat n) b)
        ++ (if newLine =? 0 then [] else [x0a]) /\
    (Forall (fun c => c <> x00) (take (Z.to_nat n) b) ->
     written stdout' =
       written stdout ++ take (Z.to_nat n) b
         ++ (if newLine =? 0 then [] else [x0a])).
Proof.
  intros Hn. unfold ConsoleWrite, precision_of.
  destruct (n <? 0) eqn:En; [lia |].
  rewrite conv_s_readable by lia. simpl. eexists. split; [done |].
  rewrite written_fputs. unfold line_end. split; [done |].
  intros Hnz. by rewrite before_nul_no_nul.
Qed.

(** C9. Switching to the batch buffer, making the writes and then flushing
    delivers exactly the bytes that the same writes send to the device with
    no buffer in between, and exactly the bytes that the same writes deliver
    through the stream as it was once it is flushed; this holds whenever the
    C library chooses to empty its buffer. *)
Theorem batch_output_equals_unbuffered (ws : list WriteCall) (stdout : Stream) :
  (fun s => delivered (Flush s))
      <$> console_writes drain ws (BeginBatchConsoleWrite stdout)
    = unbuffered_writes ws (written stdout) /\
  (fun s => delivered (Flush s))
      <$> console_writes drain ws (BeginBatchConsoleWrite stdout)
    = (fun s => delivered (fflush s)) <$> console_writes drain ws stdout.
Proof.
  assert (forall s, (fun s => delivered (Flush s)) <$> console_writes drain ws s
                    = unbuffered_writes ws (written s)) as H.
  { intros s. rewrite <- console_writes_written.
    by destruct (console_writes drain ws s). }
  split.
  - rewrite H. unfold BeginBatchConsoleWrite. by rewrite written_setvbuf.
  - rewrite H. unfold BeginBatchConsoleWrite. rewrite written_setvbuf.
    rewrite <- console_writes_written. by destruct (console_writes drain ws stdout).
Qed.

End Stdio.

Lemma ConsoleWrite_writes_text_then_newline_witness :
  exists stdout',
    ConsoleWrite drain_usual [x68; x65; x6c; x6c; x6f] 5 1 stdout_at_start
      = Some stdout' /\
    written stdout' =
      written stdout_at_start
        ++ before_nul (take (Z.to_nat 5) [x68; x65; x6c; x6c; x6f])
        ++ (if 1 =? 0 then [] else [x0a]) /\
    (Forall (fun c => c <> x00) (take (Z.to_nat 5) [x68; x65; x6c; x6c; x6f]) ->
     written stdout' =
       written stdout_at_start ++ take (Z.to_nat 5) [x68; x65; x6c; x6c; x6f]
         ++ (if 1 =? 0 then [] else [x0a])).
Proof.
  apply (ConsoleWrite_writes_text_then_newline drain_usual
           [x68; x65; x6c; x6c; x6f] 5 1 stdout_at_start).
  simpl. lia.
Defined.

(** The five bytes of [hello], length 5, newline flag set. *)
Example ConsoleWrite_hello :
  written <$> ConsoleWrite drain_usual [x68; x65; x6c; x6c; x6f] 5 1 stdout_at_start
    = Some [x68; x65; x6c; x6c; x6f; x0a].
Proof. reflexivity. Qed.

(** C6, as the claim has it, fails on a buffer with a zero byte among its
    first [n]: of the three readable bytes [68 00 69] only the first is
    written. *)
Lemma ConsoleWrite_stops_at_zero_byte :
  0 <= 3 <= Z.of_nat (length [x68; x00; x69]) /\
  exists stdout',
    ConsoleWrite drain_usual [x68; x00; x69] 3 0 stdout_at_start = Some stdout' /\
    written stdout' = [x68] /\
    written stdout' <> written stdout_at_start ++ take 3 [x68; x00; x69].
Proof.
  split; [simpl; lia |]. eexists. split; [reflexivity |]. split; [reflexivity |].
  discriminate.
Qed.

End PrintWrapperFacts.

(** ** The timestamp formatters *)

Module TimeStampFacts.

Import TimeStamp.

(** *** What the conversions print *)

Lemma NilEmpty_string_of_uint_digits (d : Decimal.uint) :
  Forall (fun c => is_digit c = true)
    (list_ascii_of_string (NilEmpty.string_of_uint d)).
Proof. induction d; simpl; constructor; done. Qed.

Lemma digits_are_digits (n : Z) : Forall (fun c => is_digit c = true) (digits n).
Proof.
  unfold digits, NilZero.string_of_uint.
  destruct (N.to_uint (Z.to_N n)) eqn:E; rewrite <- ?E;
    try apply NilEmpty_string_of_uint_digits.
  repeat constructor.
Qed.

Lemma conv_d_chars (p : nat) (v : Z) : Forall digit_or_minus (conv_d p v).
Proof.
  unfold conv_d. rewrite !Forall_app. split_and!.
  - destruct (v <? 0); [apply Forall_singleton; by right | constructor].
  - apply Forall_forall. intros c Hc%list_elem_of_In%repeat_spec. subst. by left.
  - destruct ((v =? 0) && (p =? 0)%nat); [constructor |].
    eapply Forall_impl; [apply digits_are_digits |]. intros c Hc. by left.
Qed.

Lemma conv_d_length (p : nat) (v : Z) : (p <= length (conv_d p v))%nat.
Proof. unfold conv_d. rewrite !length_app, repeat_length. lia. Qed.

Lemma format_filename_chars y mo d h mi :
  Forall digit_or_minus (format_filename y mo d h mi).
Proof. unfold format_filename. rewrite !Forall_app. split_and!; apply conv_d_chars. Qed.

Lemma format_filename_length y mo d h mi :
  (12 <= length (format_filename y mo d h mi))%nat.
Proof.
  unfold format_filename. rewrite !length_app.
  pose proof (conv_d_length 4 y). pose proof (conv_d_length 2 mo).
  pose proof (conv_d_length 2 d). pose proof (conv_d_length 2 h).
  pose proof (conv_d_length 2 mi). lia.
Qed.

Lemma format_timestamp_chars y mo d h mi s ms :
  Forall timestamp_char (format_timestamp y mo d h mi s ms).
Proof.
  unfold format_timestamp. rewrite !Forall_app.
  split_and!;
    try (eapply Forall_impl; [apply conv_d_chars | by left]);
    apply Forall_singleton; unfold timestamp_char, digit_or_minus; auto.
Qed.

Lemma format_timestamp_length y mo d h mi s ms :
  (23 <= length (format_timestamp y mo d h mi s ms))%nat.
Proof.
  unfold format_timestamp. rewrite !length_app. simpl.
  pose proof (conv_d_length 4 y). pose proof (conv_d_length 2 mo).
  pose proof (conv_d_length 2 d). pose proof (conv_d_length 2 h).
  pose proof (conv_d_length 2 mi). pose proof (conv_d_length 2 s).
  pose proof (conv_d_length 3 ms). lia.
Qed.

Lemma digit_or_minus_not_NUL c : digit_or_minus c -> c <> NUL.
Proof. intros [Hd | ->]; [| done]. intros ->. done. Qed.

Lemma timestamp_char_not_NUL c : timestamp_char c -> c <> NUL.
Proof.
  intros [Hd | [-> | [-> | ->]]]; [by apply digit_or_minus_not_NUL | done..].
Qed.

Lemma digit_or_minus_safe c : digit_or_minus c -> c ∉ unsafe_in_filename.
Proof.
  intros [Hd | ->]; unfold unsafe_in_filename; rewrite !not_elem_of_cons;
    split_and!; try done; try (intros ->; done); apply not_elem_of_nil.
Qed.

(** *** Strings in buffers *)

Lemma c_str_app_NUL (text rest : list ascii) :
  Forall (fun c => c <> NUL) text -> c_str (text ++ NUL :: rest) = text.
Proof.
  induction 1 as [|c text Hc _ IH]; simpl; [done |].
  destruct (Ascii.eqb c NUL) eqn:E; [by apply Ascii.eqb_eq in E |].
  by rewrite IH.
Qed.

Section Platform.

Variable localtime : Z -> option tm.
Variable snprintf_checks_size : bool.

Abbreviation snprintf := (snprintf snprintf_checks_size).

Lemma to_size_t_int n : 0 <= n <= INT_MAX -> to_size_t n = n.
Proof. unfold to_size_t, INT_MAX. intros H. apply Z.mod_small. lia. Qed.

Lemma snprintf_not_refused n :
  0 <= n <= INT_MAX -> snprintf_checks_size && (INT_MAX <? n) = false.
Proof. intros H. apply andb_false_iff. right. lia. Qed.

(** *** [snprintf] *)

Lemma snprintf_returns buffer n text len buffer' :
  snprintf buffer n text = Done len buffer' ->
  (len = -1 /\ buffer' = buffer) \/ len = Z.of_nat (length text).
Proof.
  unfold TimeStamp.snprintf.
  destruct (snprintf_checks_size && (INT_MAX <? n)); [intros [= <- <-]; by left |].
  destruct (n =? 0); [intros [= <- <-]; by right |].
  destruct (_ <? _)%nat; [done |]. intros [= <- <-]. by right.
Qed.

Lemma snprintf_zero buffer text :
  snprintf buffer 0 text = Done (Z.of_nat (length text)) buffer.
Proof.
  unfold TimeStamp.snprintf. rewrite snprintf_not_refused by (unfold INT_MAX; lia).
  done.
Qed.

Lemma snprintf_stores buffer n text :
  0 < n <= INT_MAX -> n <= Z.of_nat (length buffer) ->
  snprintf buffer n text =
    Done (Z.of_nat (length text))
      (take (Z.to_nat (n - 1)) text
         ++ NUL :: drop (S (length (take (Z.to_nat (n - 1)) text))) buffer).
Proof.
  intros Hn Hbuf. unfold TimeStamp.snprintf.
  rewrite snprintf_not_refused by lia.
  destruct (n =? 0) eqn:E; [lia |].
  assert (length (take (Z.to_nat (n - 1)) text ++ [NUL])
          = S (length (take (Z.to_nat (n - 1)) text))) as Hlen.
  { rewrite length_app. simpl. lia. }
  rewrite Hlen.
  destruct (_ <? _)%nat eqn:E2.
  - apply Nat.ltb_lt in E2. rewrite length_take in E2. lia.
  - by rewrite <- (assoc_L (++)).
Qed.

(** A buffer with room for the text and its NUL receives all of it. *)
Lemma snprintf_fits buffer n text :
  Z.of_nat (length text) < n <= INT_MAX -> n <= Z.of_nat (length buffer) ->
  snprintf buffer n text =
    Done (Z.of_nat (length text)) (text ++ NUL :: drop (S (length text)) buffer).
Proof.
  intros Hn Hbuf. rewrite snprintf_stores by lia.
  by rewrite take_ge by lia.
Qed.

(** A buffer of [n] bytes with no room for the whole text receives its first
    [n - 1] characters and a NUL; the return value is the same. *)
Lemma snprintf_truncates buffer n text :
  0 < n <= Z.of_nat (length text) -> n <= INT_MAX ->
  n <= Z.of_nat (length buffer) ->
  snprintf buffer n text =
    Done (Z.of_nat (length text))
      (take (Z.to_nat (n - 1)) text ++ NUL :: drop (Z.to_nat n) buffer).
Proof.
  intros Hn Hmax Hbuf. rewrite snprintf_stores by lia.
  rewrite length_take. do 4 f_equal. lia.
Qed.

Lemma truncated_text_unstored (text buffer : list ascii) (bufferSize : Z) :
  Forall (fun c => c <> NUL) text ->
  (0 < length text)%nat ->
  0 <= bufferSize < Z.of_nat (length text) ->
  bufferSize <= INT_MAX ->
  bufferSize <= Z.of_nat (length buffer) ->
  returns_length_of_unstored_text
    match snprintf buffer (to_size_t bufferSize) text with
    | Done length buffer' => Done (if length <? 0 then 0 else length) buffer'
    | NullDereference => NullDereference
    | BufferOverrun => BufferOverrun
    end text buffer bufferSize.
Proof.
  intros Hnul Hpos Hsz Hmax Hbuf. unfold returns_length_of_unstored_text.
  rewrite to_size_t_int by lia.
  assert ((Z.of_nat (length text) <? 0) = false) as Enn by lia.
  destruct (decide (bufferSize = 0)) as [-> | Hne].
  - rewrite snprintf_zero, Enn. exists buffer.
    split_and!; [done | lia | done | done | intros ?; lia].
  - rewrite snprintf_truncates, Enn by lia. eexists. split; [done |].
    split; [lia |]. split_and!.
    + rewrite (cons_middle NUL), (assoc_L (++)).
      apply drop_app_length'. rewrite length_app, length_take. simpl. lia.
    + done.
    + intros _.
      assert (c_str (take (Z.to_nat (bufferSize - 1)) text
                       ++ NUL :: drop (Z.to_nat bufferSize) buffer)
              = take (Z.to_nat (bufferSize - 1)) text) as ->.
      { apply c_str_app_NUL. by apply Forall_take. }
      split; [done |]. intros Heq. apply (f_equal length) in Heq.
      rewrite length_take in Heq. lia.
Qed.

Lemma timestamp_text_not_NUL tptr tsNano :
  Forall (fun c => c <> NUL) (timestamp_text tptr tsNano).
Proof.
  eapply Forall_impl; [apply format_timestamp_chars | apply timestamp_char_not_NUL].
Qed.

Lemma filename_text_not_NUL tptr : Forall (fun c => c <> NUL) (filename_text tptr).
Proof.
  eapply Forall_impl; [apply format_filename_chars | apply digit_or_minus_not_NUL].
Qed.

(** *** When [localtime] succeeds *)

Lemma GetFormattedTimeStampString_returns tsNano buffer bufferSize tptr n buffer' :
  localtime (Z.quot tsNano 1000000000) = Some tptr ->
  GetFormattedTimeStampString localtime snprintf_checks_size tsNano buffer bufferSize
    = Done n buffer' ->
  n = 0 \/ n = Z.of_nat (length (timestamp_text tptr tsNano)).
Proof.
  intros Hlt. unfold GetFormattedTimeStampString. rewrite Hlt.
  fold (timestamp_text tptr tsNano).
  destruct (snprintf _ _ _) as [len b| |] eqn:E; [|done..].
  intros [= <- <-]. apply snprintf_returns in E as [[-> _] | ->]; [by left |].
  right. destruct (_ <? 0) eqn:E0; lia.
Qed.

Lemma GetFormattedTimeStampStringForFileNameNative_returns
    tsNano buffer bufferSize tptr n buffer' :
  localtime (Z.quot tsNano 1000000000) = Some tptr ->
  GetFormattedTimeStampStringForFileNameNative localtime snprintf_checks_size
    tsNano buffer bufferSize = Done n buffer' ->
  n = 0 \/ n = Z.of_nat (length (filename_text tptr)).
Proof.
  intros Hlt. unfold GetFormattedTimeStampStringForFileNameNative. rewrite Hlt.
  fold (filename_text tptr).
  destruct (snprintf _ _ _) as [len b| |] eqn:E; [|done..].
  intros [= <- <-]. apply snprintf_returns in E as [[-> _] | ->]; [by left |].
  right. destruct (_ <? 0) eqn:E0; lia.
Qed.

(** *** When [localtime] fails *)

Lemma null_tm_is_dereferenced tsNano buffer bufferSize :
  localtime (Z.quot tsNano 1000000000) = None ->
  GetFormattedTimeStampString localtime snprintf_checks_size tsNano buffer bufferSize
    = NullDereference /\
  GetFormattedTimeStampStringForFileNameNative localtime snprintf_checks_size
    tsNano buffer bufferSize = NullDereference.
Proof.
  intros Hlt.
  unfold GetFormattedTimeStampString, GetFormattedTimeStampStringForFileNameNative.
  by rewrite Hlt.
Qed.

(** *** Properties of the formatters *)

(** C8. When [GetFormattedTimeStampStringForFileNameNative] returns a
    nonzero length that leaves room for the terminating NUL in a buffer of
    [bufferSize] bytes, the string in the buffer has exactly that length and
    every character of it is a digit or a minus sign: none is a colon, a
    space, or any other character refused in file names. *)
Theorem filename_timestamp_is_filename_safe
    (tsNano : Z) (buffer : list ascii) (bufferSize n : Z) (buffer' : list ascii) :
  GetFormattedTimeStampStringForFileNameNative localtime snprintf_checks_size
    tsNano buffer bufferSize = Done n buffer' ->
  n <> 0 ->
  n < bufferSize <= INT_MAX ->
  Z.of_nat (length (c_str buffer')) = n /\
  Forall digit_or_minus (c_str buffer') /\
  Forall (fun c => c ∉ unsafe_in_filename) (c_str buffer') /\
  (":"%char ∉ c_str buffer') /\ (" "%char ∉ c_str buffer').
Proof.
  intros Hret Hnz Hsz.
  destruct (localtime (Z.quot tsNano 1000000000)) as [tptr|] eqn:Hlt;
    [| destruct (null_tm_is_dereferenced tsNano buffer bufferSize Hlt) as [_ Hnull];
       congruence].
  destruct (GetFormattedTimeStampStringForFileNameNative_returns
              tsNano buffer bufferSize tptr n buffer' Hlt Hret) as [-> | Hn];
    [done |].
  unfold GetFormattedTimeStampStringForFileNameNative in Hret. rewrite Hlt in Hret.
  fold (filename_text tptr) in Hret.
  rewrite to_size_t_int in Hret by lia.
  destruct (snprintf buffer bufferSize (filename_text tptr)) as [len b| |] eqn:E;
    [| done..].
  injection Hret as _ <-.
  assert (c_str b = filename_text tptr) as ->.
  { unfold TimeStamp.snprintf in E. rewrite snprintf_not_refused in E by lia.
    destruct (bufferSize =? 0) eqn:E0; [lia |].
    destruct (_ <? _)%nat; [done |]. injection E as _ <-.
    rewrite take_ge by lia. rewrite <- (assoc_L (++)).
    apply c_str_app_NUL, filename_text_not_NUL. }
  pose proof (format_filename_chars
                (wrap32 (tm_year tptr + 1900)) (wrap32 (tm_mon tptr + 1))
                (tm_mday tptr) (tm_hour tptr) (tm_min tptr)) as Hchars.
  fold (filename_text tptr) in Hchars.
  assert (Forall (fun c => c ∉ unsafe_in_filename) (filename_text tptr)) as Hsafe.
  { eapply Forall_impl; [exact Hchars | apply digit_or_minus_safe]. }
  split_and!; [done | done | done | |].
  - intros Hin. rewrite Forall_forall in Hsafe. apply (Hsafe _ Hin).
    unfold unsafe_in_filename. repeat constructor.
  - intros Hin. rewrite Forall_forall in Hsafe. apply (Hsafe _ Hin).
    unfold unsafe_in_filename. repeat constructor.
Qed.

(** C10. With [localtime] succeeding and a buffer of [bufferSize] bytes,
    fewer than the formatted text has characters, each formatter returns the
    length of the whole text, which is positive, although the buffer holds
    only the first [bufferSize - 1] characters of it (nothing at all for
    [bufferSize = 0]): the string in the buffer is not the formatted text. *)
Theorem truncated_output_returns_full_length
    (tsNano : Z) (buffer : list ascii) (bufferSize : Z) (tptr : tm) :
  localtime (Z.quot tsNano 1000000000) = Some tptr ->
  bufferSize <= INT_MAX ->
  bufferSize <= Z.of_nat (length buffer) ->
  (0 <= bufferSize < Z.of_nat (length (timestamp_text tptr tsNano)) ->
   returns_length_of_unstored_text
     (GetFormattedTimeStampString localtime snprintf_checks_size
        tsNano buffer bufferSize)
     (timestamp_text tptr tsNano) buffer bufferSize) /\
  (0 <= bufferSize < Z.of_nat (length (filename_text tptr)) ->
   returns_length_of_unstored_text
     (GetFormattedTimeStampStringForFileNameNative localtime snprintf_checks_size
        tsNano buffer bufferSize)
     (filename_text tptr) buffer bufferSize).
Proof.
  intros Hlt Hmax Hbuf. split; intros Hsz.
  - unfold GetFormattedTimeStampString. rewrite Hlt.
    apply truncated_text_unstored; [apply timestamp_text_not_NUL | | done..].
    pose proof (format_timestamp_length
                  (wrap32 (tm_year tptr + 1900)) (wrap32 (tm_mon tptr + 1))
                  (tm_mday tptr) (tm_hour tptr) (tm_min tptr) (tm_sec tptr)
                  (wrap32 (Z.quot (Z.rem tsNano 1000000000) 1000000))) as H.
    unfold timestamp_text. lia.
  - unfold GetFormattedTimeStampStringForFileNameNative. rewrite Hlt.
    apply truncated_text_unstored; [apply filename_text_not_NUL | | done..].
    pose proof (format_filename_length
                  (wrap32 (tm_year tptr + 1900)) (wrap32 (tm_mon tptr + 1))
                  (tm_mday tptr) (tm_hour tptr) (tm_min tptr)) as H.
    unfold filename_text. lia.
Qed.

End Platform.

(** *** Running the formatters *)

Example timestamp_of_epoch :
  GetFormattedTimeStampString localtime_utc false 0 (repeat "x"%char 32) 32
    = Done 23 (list_ascii_of_string "1970-01-01 00:00:00,000"
                 ++ NUL :: repeat "x"%char 8).
Proof. vm_compute. reflexivity. Qed.

Example timestamp_before_epoch :
  c_str <$> (match GetFormattedTimeStampString localtime_utc false
                     (-1500000000) (repeat "x"%char 32) 32 with
             | Done _ b => Some b
             | _ => None
             end)
    = Some (list_ascii_of_string "1969-12-31 23:59:59,-500").
Proof. vm_compute. reflexivity. Qed.

Lemma filename_timestamp_is_filename_safe_witness :
  Z.of_nat (length (c_str (list_ascii_of_string "202311142213"
                             ++ NUL :: repeat "x"%char 19))) = 12 /\
  Forall digit_or_minus
    (c_str (list_ascii_of_string "202311142213" ++ NUL :: repeat "x"%char 19)) /\
  Forall (fun c => c ∉ unsafe_in_filename)
    (c_str (list_ascii_of_string "202311142213" ++ NUL :: repeat "x"%char 19)) /\
  (":"%char ∉ c_str (list_ascii_of_string "202311142213"
                       ++ NUL :: repeat "x"%char 19)) /\
  (" "%char ∉ c_str (list_ascii_of_string "202311142213"
                       ++ NUL :: repeat "x"%char 19)).
Proof.
  apply (filename_timestamp_is_filename_safe localtime_utc false
           1700000000123456789 (repeat "x"%char 32) 32 12
           (list_ascii_of_string "202311142213" ++ NUL :: repeat "x"%char 19)).
  - vm_compute. reflexivity.
  - discriminate.
  - unfold INT_MAX. lia.
Defined.

Lemma truncated_output_returns_full_length_witness :
  returns_length_of_unstored_text
    (GetFormattedTimeStampString localtime_utc false
       1700000000123456789 (repeat "x"%char 32) 5)
    (timestamp_text (utc_fields 1700000000) 1700000000123456789)
    (repeat "x"%char 32) 5 /\
  returns_length_of_unstored_text
    (GetFormattedTimeStampStringForFileNameNative localtime_utc false
       1700000000123456789 (repeat "x"%char 32) 5)
    (filename_text (utc_fields 1700000000)) (repeat "x"%char 32) 5.
Proof.
  destruct (truncated_output_returns_full_length localtime_utc false
              1700000000123456789 (repeat "x"%char 32) 5 (utc_fields 1700000000))
    as [Hlong Hfile].
  - vm_compute. reflexivity.
  - unfold INT_MAX. lia.
  - simpl. lia.
  - split; [apply Hlong | apply Hfile];
      vm_compute; (split; [discriminate | reflexivity]).
Defined.

(** C5, where the code falls short of it.  A C library whose [localtime]
    returns a null pointer for a time before 1970 is handed one by the
    timestamp of one second before the epoch, -1000000000 ns: both formatters
    then read [tptr->tm_year] through the null pointer, whatever the buffer,
    and return nothing, where the claim has them return 0. *)
Theorem calendar_failure_reads_null_pointer
    (snprintf_checks_size : bool) (buffer : list ascii) (bufferSize : Z) :
  localtime_crt (Z.quot (-1000000000) 1000000000) = None /\
  GetFormattedTimeStampString localtime_crt snprintf_checks_size
    (-1000000000) buffer bufferSize = NullDereference /\
  GetFormattedTimeStampStringForFileNameNative localtime_crt snprintf_checks_size
    (-1000000000) buffer bufferSize = NullDereference.
Proof.
  split; [reflexivity |].
  apply null_tm_is_dereferenced. reflexivity.
Qed.

End TimeStampFacts.

(** * Further properties *)

(** ** The lock registry *)

Module SpinlockMore.

Import Spinlock SpinlockCalls SpinlockFacts.
Local Open Scope spin_scope.

(** *** What a call leaves alone *)

Lemma LockImpl_frame fuel r h v r' :
  LockImpl fuel h r = Returned v r' ->
  forall k, k <> h -> s_SpinLockMap r' !! k = s_SpinLockMap r !! k.
Proof.
  revert r. induction fuel as [|fuel IH]; intros r; [done |].
  simpl. unfold bind at 1. unfold RetrieveLockFromHandle.
  destruct (s_SpinLockMap r !! h) as [b|] eqn:Hh; [|done].
  unfold bind at 1. unfold test_and_set. rewrite Hh. simpl.
  destruct b.
  - intros Hret k Hk. rewrite (IH _ Hret k Hk). simpl.
    by rewrite lookup_alter_ne.
  - unfold ret. intros [= _ <-] k Hk. simpl. by rewrite lookup_alter_ne.
Qed.

Lemma LockImpl_returns_true fuel r h v r' :
  LockImpl fuel h r = Returned v r' ->
  v = true /\ s_SpinLockMap r !! h = Some false /\
  s_SpinLockMap r' !! h = Some true.
Proof.
  destruct (s_SpinLockMap r !! h) as [[|]|] eqn:Hh.
  - by rewrite (LockImpl_set_spins fuel r h Hh).
  - destruct fuel as [|fuel]; [done |].
    rewrite (LockImpl_clear fuel r h Hh). intros [= <- <-]. simpl.
    by rewrite lookup_insert_eq.
  - destruct fuel as [|fuel]; [done |]. by rewrite (LockImpl_absent fuel r h Hh).
Qed.

(** X1. [Lock] on a token whose flag is clear returns true at the first test
    of its loop, whatever fuel it is given beyond that; it sets that flag and
    leaves the handles of the table, every other flag and the counter as
    they were. *)
Theorem lock_takes_clear_token (fuel : nat) (r : Registry) (h : Z) :
  s_SpinLockMap r !! h = Some false ->
  exists r',
    Lock Native (S fuel) h r = Returned true r' /\
    s_SpinLockMap r' !! h = Some true /\
    dom (s_SpinLockMap r') = dom (s_SpinLockMap r) /\
    (forall k, k <> h -> s_SpinLockMap r' !! k = s_SpinLockMap r !! k) /\
    s_NextKey r' = s_NextKey r.
Proof.
  intros Hh. eexists. split; [apply (LockImpl_clear fuel r h Hh) |].
  simpl. split_and!.
  - by rewrite lookup_insert_eq.
  - by apply dom_insert_lookup_L.
  - intros k Hk. by rewrite lookup_insert_ne.
  - done.
Qed.

Lemma lock_takes_clear_token_witness :
  exists r',
    Lock Native 1 2 one_free_token = Returned true r' /\
    s_SpinLockMap r' !! 2 = Some true /\
    dom (s_SpinLockMap r') = dom (s_SpinLockMap one_free_token) /\
    (forall k, k <> 2 ->
       s_SpinLockMap r' !! k = s_SpinLockMap one_free_token !! k) /\
    s_NextKey r' = s_NextKey one_free_token.
Proof. apply (lock_takes_clear_token 0 one_free_token 2). reflexivity. Defined.

(** X2. [Lock] is not reentrant: on a token whose flag is already set, a
    thread running alone stays in the loop of [LockImpl] for every amount of
    fuel; the call neither returns nor terminates the process. *)
Theorem lock_on_held_token_spins (r : Registry) (h : Z) (fuel : nat) :
  s_SpinLockMap r !! h = Some true ->
  Lock Native fuel h r = Spinning /\
  (forall v r', Lock Native fuel h r <> Returned v r') /\
  Lock Native fuel h r <> Terminated.
Proof.
  intros Hh. simpl. rewrite (LockImpl_set_spins fuel r h Hh). done.
Qed.

Lemma lock_on_held_token_spins_witness :
  Lock Native 1000 2 one_locked_token = Spinning /\
  (forall v r', Lock Native 1000 2 one_locked_token <> Returned v r') /\
  Lock Native 1000 2 one_locked_token <> Terminated.
Proof. apply (lock_on_held_token_spins one_locked_token 2 1000). reflexivity. Defined.

(** X3. Taking a free token and giving it back restores the statics
    exactly: [Lock] then [Unlock], and [TryLock] then [Unlock], on a handle
    whose flag is clear end in the state they started from. *)
Theorem acquire_release_round_trip (fuel : nat) (r : Registry) (h : Z) :
  s_SpinLockMap r !! h = Some false ->
  (exists r1, Lock Native (S fuel) h r = Returned true r1 /\
              Unlock Native h r1 = Returned tt r) /\
  (exists r1, TryLock Native h r = Returned true r1 /\
              Unlock Native h r1 = Returned tt r).
Proof.
  intros Hh.
  assert (UnlockImpl h {| s_SpinLockMap := <[h := true]> (s_SpinLockMap r);
                          s_NextKey := s_NextKey r |} = Returned tt r) as Hun.
  { rewrite (UnlockImpl_present _ h true) by (simpl; by rewrite lookup_insert_eq).
    simpl. rewrite insert_insert_eq, insert_id by done. by rewrite registry_eta. }
  split; eexists; (split; [| exact Hun]).
  - apply (LockImpl_clear fuel r h Hh).
  - apply (TryLockImpl_present r h false Hh).
Qed.

Lemma acquire_release_round_trip_witness :
  (exists r1, Lock Native 1 2 one_free_token = Returned true r1 /\
              Unlock Native 2 r1 = Returned tt one_free_token) /\
  (exists r1, TryLock Native 2 one_free_token = Returned true r1 /\
              Unlock Native 2 r1 = Returned tt one_free_token).
Proof. apply (acquire_release_round_trip 0 one_free_token 2). reflexivity. Defined.

(** X4. [TryLock] on a handle of the table always returns, with true exactly
    when the flag was clear; afterwards the flag is set, and the handles of
    the table, every other flag and the counter are as they were. *)
Theorem trylock_sets_only_its_flag (r : Registry) (h : Z) (b : bool) :
  s_SpinLockMap r !! h = Some b ->
  exists r',
    TryLock Native h r = Returned (negb b) r' /\
    s_SpinLockMap r' !! h = Some true /\
    dom (s_SpinLockMap r') = dom (s_SpinLockMap r) /\
    (forall k, k <> h -> s_SpinLockMap r' !! k = s_SpinLockMap r !! k) /\
    s_NextKey r' = s_NextKey r.
Proof.
  intros Hh. eexists. split; [apply (TryLockImpl_present r h b Hh) |].
  simpl. split_and!.
  - by rewrite lookup_insert_eq.
  - by apply dom_insert_lookup_L.
  - intros k Hk. by rewrite lookup_insert_ne.
  - done.
Qed.

Lemma trylock_sets_only_its_flag_witness :
  exists r',
    TryLock Native 2 one_locked_token = Returned (negb true) r' /\
    s_SpinLockMap r' !! 2 = Some true /\
    dom (s_SpinLockMap r') = dom (s_SpinLockMap one_locked_token) /\
    (forall k, k <> 2 ->
       s_SpinLockMap r' !! k = s_SpinLockMap one_locked_token !! k) /\
    s_NextKey r' = s_NextKey one_locked_token.
Proof.
  apply (trylock_sets_only_its_flag one_locked_token 2 true). reflexivity.
Defined.

(** X5. [DestroySpinLock] always returns, whether the token is locked or
    not; it removes that handle alone, and from then on [Lock], [TryLock] and
    [Unlock] on the handle end in [std::terminate()]. *)
Theorem destroy_removes_only_its_token (r : Registry) (h : Z) :
  exists r',
    DestroySpinLock Native h r = Returned tt r' /\
    s_SpinLockMap r' !! h = None /\
    (forall k, k <> h -> s_SpinLockMap r' !! k = s_SpinLockMap r !! k) /\
    s_NextKey r' = s_NextKey r /\
    (forall fuel, Lock Native (S fuel) h r' = Terminated) /\
    TryLock Native h r' = Terminated /\
    Unlock Native h r' = Terminated.
Proof.
  eexists. split; [reflexivity |]. simpl.
  assert (delete h (s_SpinLockMap r) !! h = None) as Hgone
    by apply lookup_delete_eq.
  split_and!.
  - done.
  - intros k Hk. by rewrite lookup_delete_ne.
  - done.
  - intros fuel. by apply LockImpl_absent.
  - unfold_calls. simpl. by rewrite Hgone.
  - unfold_calls. simpl. by rewrite Hgone.
Qed.

Lemma CreateSpinLockImpl_unfolded r :
  CreateSpinLockImpl r =
    Returned (wrap64 (s_NextKey r + 1))
      {| s_SpinLockMap :=
           match s_SpinLockMap r !! wrap64 (s_NextKey r + 1) with
           | Some _ => s_SpinLockMap r
           | None => <[wrap64 (s_NextKey r + 1) := false]> (s_SpinLockMap r)
           end;
         s_NextKey := wrap64 (s_NextKey r + 1) |}.
Proof.
  unfold_calls. simpl.
  by destruct (s_SpinLockMap r !! wrap64 (s_NextKey r + 1)).
Qed.

Lemma CreateSpinLockImpl_keeps r :
  exists h r',
    CreateSpinLockImpl r = Returned h r' /\
    h = wrap64 (s_NextKey r + 1) /\
    s_NextKey r' = h /\
    is_Some (s_SpinLockMap r' !! h) /\
    (forall k b, s_SpinLockMap r !! k = Some b -> s_SpinLockMap r' !! k = Some b) /\
    dom (s_SpinLockMap r') = {[ h ]} ∪ dom (s_SpinLockMap r).
Proof.
  eexists _, _. split; [apply CreateSpinLockImpl_unfolded |]. simpl.
  split; [done |]. split; [done |].
  destruct (s_SpinLockMap r !! wrap64 (s_NextKey r + 1)) as [b|] eqn:Hk.
  - split_and!; [by exists b | done |].
    apply elem_of_dom_2 in Hk. apply leibniz_equiv.
    intros k. rewrite elem_of_union, elem_of_singleton.
    split; [by right | by intros [-> | ?]].
  - split_and!.
    + rewrite lookup_insert_eq. by eexists.
    + intros k b Hb. rewrite lookup_insert_ne; [done |]. congruence.
    + apply dom_insert_L.
Qed.

(** X6. [CreateSpinLock] always returns, and the handle it returns is in the
    table afterwards; no token that was in the table before has its flag
    changed, because [emplace] does not overwrite. *)
Theorem create_keeps_existing_tokens (r : Registry) :
  exists h r',
    CreateSpinLock Native r = Returned h r' /\
    h = wrap64 (s_NextKey r + 1) /\
    s_NextKey r' = h /\
    is_Some (s_SpinLockMap r' !! h) /\
    (forall k b, s_SpinLockMap r !! k = Some b -> s_SpinLockMap r' !! k = Some b) /\
    dom (s_SpinLockMap r') = {[ h ]} ∪ dom (s_SpinLockMap r).
Proof. apply CreateSpinLockImpl_keeps. Qed.

(** X7. In a state reached from process start with the counter not run out,
    creating a token and destroying it at once leaves the table exactly as
    it was; only the counter has moved, by one, so the handle is not given
    out again. *)
Theorem create_destroy_round_trip (fuel : nat) (cs : list Call)
    (vs : list Value) (r : Registry) :
  run Native fuel cs process_start = Returned vs r ->
  creations cs < INT64_MAX - 1 ->
  exists h r1 r2,
    CreateSpinLock Native r = Returned h r1 /\
    DestroySpinLock Native h r1 = Returned tt r2 /\
    s_SpinLockMap r2 = s_SpinLockMap r /\
    s_NextKey r2 = s_NextKey r + 1 /\
    h = s_NextKey r + 1.
Proof.
  intros Hrun Hlt. pose proof (creations_nonneg cs) as Hnn.
  apply run_returns in Hrun as (Hinv & Hn & _);
    [| apply keys_issued_start | simpl; lia].
  simpl in Hn.
  eexists _, _, _. split; [apply CreateSpinLockImpl_fresh; [done | lia] |].
  split; [reflexivity |]. simpl. split_and!; [| done..].
  apply delete_insert_id. by apply next_key_unused.
Qed.

Lemma create_destroy_round_trip_witness :
  exists h r1 r2,
    CreateSpinLock Native one_locked_token = Returned h r1 /\
    DestroySpinLock Native h r1 = Returned tt r2 /\
    s_SpinLockMap r2 = s_SpinLockMap one_locked_token /\
    s_NextKey r2 = s_NextKey one_locked_token + 1 /\
    h = s_NextKey one_locked_token + 1.
Proof.
  apply (create_destroy_round_trip 0 [CallCreateSpinLock; CallTryLock 2]
           [VHandle 2; VBool true] one_locked_token).
  - vm_compute. reflexivity.
  - vm_compute. reflexivity.
Defined.

(** *** Which handles are in the table *)

Lemma invoke_dom fuel c r v r' :
  invoke Native fuel c r = Returned v r' ->
  match c with
  | CallCreateSpinLock =>
      exists h, v = VHandle h /\
                dom (s_SpinLockMap r') = {[ h ]} ∪ dom (s_SpinLockMap r)
  | CallDestroySpinLock k =>
      dom (s_SpinLockMap r') = dom (s_SpinLockMap r) ∖ {[ k ]}
  | _ => dom (s_SpinLockMap r') = dom (s_SpinLockMap r)
  end.
Proof.
  destruct c as [|h|h|h|h]; unfold invoke; intros (a & r0 & Hc & Hret)%bind_returned;
    unfold ret in Hret; injection Hret as <- <-.
  - destruct (CreateSpinLockImpl_keeps r) as (k & q & Hq & _ & _ & _ & _ & Hdom).
    unfold CreateSpinLock in Hc. rewrite Hc in Hq. injection Hq as <- <-. eauto.
  - by apply LockImpl_returns in Hc as [_ Hd].
  - simpl in Hc. destruct (s_SpinLockMap r !! h) as [b|] eqn:Hh.
    + rewrite (TryLockImpl_present r h b Hh) in Hc. injection Hc as _ <-.
      simpl. by apply dom_insert_lookup_L.
    + unfold_calls. by rewrite Hh in Hc.
  - simpl in Hc. destruct (s_SpinLockMap r !! h) as [b|] eqn:Hh.
    + rewrite (UnlockImpl_present r h b Hh) in Hc. injection Hc as _ <-.
      simpl. by apply dom_insert_lookup_L.
    + unfold_calls. by rewrite Hh in Hc.
  - unfold_calls. injection Hc as _ <-. simpl. apply dom_delete_L.
Qed.

Lemma run_live_handles fuel cs r vs r' h :
  run Native fuel cs r = Returned vs r' ->
  h ∈ dom (s_SpinLockMap r') <->
  (h ∈ dom (s_SpinLockMap r) /\
   forall j, cs !! j <> Some (CallDestroySpinLock h)) \/
  (exists i, cs !! i = Some CallCreateSpinLock /\ vs !! i = Some (VHandle h) /\
             forall j, (i < j)%nat -> cs !! j <> Some (CallDestroySpinLock h)).
Proof.
  revert r vs. induction cs as [|c cs IH]; intros r vs.
  - intros [= <- <-]. split; [intros Hin; left; by split |].
    intros [[Hin _] | (i & Hi & _)]; done.
  - intros (v & r1 & vs0 & Hc & Hrun & ->)%run_cons.
    rewrite (IH _ _ Hrun). clear IH.
    apply invoke_dom in Hc. split.
    + intros [[Hin Hno] | (i & Hi & Hv & Hno)].
      * destruct c as [|k|k|k|k].
        -- destruct Hc as (h0 & -> & Hdom). rewrite Hdom in Hin.
           apply elem_of_union in Hin as [->%elem_of_singleton | Hin].
           ++ right. exists 0%nat. split_and!; [done | done |].
              intros [|j] Hj; [lia |]. apply Hno.
           ++ left. split; [done |]. intros [|j]; [done | apply Hno].
        -- rewrite Hc in Hin. left. split; [done |]. intros [|j]; [done | apply Hno].
        -- rewrite Hc in Hin. left. split; [done |]. intros [|j]; [done | apply Hno].
        -- rewrite Hc in Hin. left. split; [done |]. intros [|j]; [done | apply Hno].
        -- rewrite Hc in Hin. apply elem_of_difference in Hin as [Hin Hne].
           rewrite elem_of_singleton in Hne.
           left. split; [done |]. intros [|j]; [simpl; congruence | apply Hno].
      * right. exists (S i). split_and!; [done | done |].
        intros [|j] Hj; [lia |]. apply Hno. lia.
    + intros [[Hin Hno] | (i & Hi & Hv & Hno)].
      * left. split; [| intros j; apply (Hno (S j))].
        destruct c as [|k|k|k|k]; try (by rewrite Hc).
        -- destruct Hc as (h0 & _ & ->). apply elem_of_union. by right.
        -- rewrite Hc. apply elem_of_difference. split; [done |].
           rewrite elem_of_singleton. intros ->. by apply (Hno 0%nat).
      * destruct i as [|i].
        -- simpl in Hi, Hv. injection Hi as ->. injection Hv as ->.
           destruct Hc as (h0 & [= <-] & ->).
           left. split; [apply elem_of_union; left; by apply elem_of_singleton |].
           intros j. apply (Hno (S j)). lia.
        -- right. exists i. split_and!; [done | done |].
           intros j Hj. apply (Hno (S j)). lia.
Qed.

(** X8. A handle is valid from its creation to its destruction, and at no
    other time: after any run of calls from process start that returns, the
    handles in the table are exactly those returned by a [CreateSpinLock] of
    the run with no [DestroySpinLock] on them later in the run. *)
Theorem table_holds_created_not_destroyed (fuel : nat) (cs : list Call)
    (vs : list Value) (r : Registry) (h : Z) :
  run Native fuel cs process_start = Returned vs r ->
  h ∈ dom (s_SpinLockMap r) <->
  exists i, cs !! i = Some CallCreateSpinLock /\ vs !! i = Some (VHandle h) /\
            forall j, (i < j)%nat -> cs !! j <> Some (CallDestroySpinLock h).
Proof.
  intros Hrun. rewrite (run_live_handles _ _ _ _ _ h Hrun). split; [| by right].
  intros [[Hin _] | H]; [| done].
  simpl in Hin. rewrite dom_empty_L in Hin. by apply not_elem_of_empty in Hin.
Qed.

Lemma table_holds_created_not_destroyed_witness :
  2 ∈ dom (s_SpinLockMap one_locked_token) <->
  exists i, [CallCreateSpinLock; CallTryLock 2] !! i = Some CallCreateSpinLock /\
            [VHandle 2; VBool true] !! i = Some (VHandle 2) /\
            forall j, (i < j)%nat ->
              [CallCreateSpinLock; CallTryLock 2] !! j
                <> Some (CallDestroySpinLock 2).
Proof.
  apply (table_holds_created_not_destroyed 0 [CallCreateSpinLock; CallTryLock 2]
           [VHandle 2; VBool true] one_locked_token 2).
  vm_compute. reflexivity.
Defined.

(** *** Holding a token *)

Lemma invoke_keeps_held fuel c r v r' h :
  s_SpinLockMap r !! h = Some true ->
  invoke Native fuel c r = Returned v r' ->
  ~ releases h c ->
  s_SpinLockMap r' !! h = Some true /\ (acquires h c -> v = VBool false).
Proof.
  intros Hh Hinv Hrel. unfold invoke in Hinv.
  destruct c as [|k|k|k|k];
    apply bind_returned in Hinv as (a & r0 & Hc & Hret);
    unfold ret in Hret; injection Hret as <- <-.
  - destruct (CreateSpinLockImpl_keeps r) as (k & q & Hq & _ & _ & _ & Hkeep & _).
    unfold CreateSpinLock in Hc. rewrite Hc in Hq. injection Hq as <- <-.
    split; [by apply Hkeep | by intros [|]].
  - simpl in Hc. pose proof (LockImpl_returns_true _ _ _ _ _ Hc) as (_ & Hfree & _).
    assert (k <> h) as Hne by (intros ->; congruence).
    split; [by rewrite (LockImpl_frame _ _ _ _ _ Hc h) | intros [[=]|[=]]; done].
  - simpl in Hc. destruct (s_SpinLockMap r !! k) as [b|] eqn:Hk;
      [| unfold_calls; by rewrite Hk in Hc].
    rewrite (TryLockImpl_present r k b Hk) in Hc. injection Hc as <- <-. simpl.
    destruct (decide (k = h)) as [-> | Hne].
    + rewrite lookup_insert_eq. split; [done |]. intros _.
      rewrite Hh in Hk. by injection Hk as <-.
    + rewrite lookup_insert_ne by done. split; [done | intros [[=]|[=]]; done].
  - simpl in Hc. destruct (s_SpinLockMap r !! k) as [b|] eqn:Hk;
      [| unfold_calls; by rewrite Hk in Hc].
    rewrite (UnlockImpl_present r k b Hk) in Hc. injection Hc as _ <-. simpl.
    assert (k <> h) as Hne by (intros ->; apply Hrel; by left).
    rewrite lookup_insert_ne by done. split; [done | by intros [|]].
  - unfold_calls. injection Hc as _ <-. simpl.
    assert (k <> h) as Hne by (intros ->; apply Hrel; by right).
    rewrite lookup_delete_ne by done. split; [done | by intros [|]].
Qed.

Lemma releases_dec h c : {releases h c} + {~ releases h c}.
Proof.
  unfold releases.
  destruct c as [|k|k|k|k]; try (right; intros [|]; done);
    (destruct (decide (k = h)) as [-> | Hne];
     [left; auto | right; intros [[=]|[=]]; done]).
Defined.

Lemma held_needs_release fuel cs r vs r' h j cj :
  s_SpinLockMap r !! h = Some true ->
  run Native fuel cs r = Returned vs r' ->
  cs !! j = Some cj -> acquires h cj -> vs !! j = Some (VBool true) ->
  exists k ck, (k < j)%nat /\ cs !! k = Some ck /\ releases h ck.
Proof.
  revert r vs j. induction cs as [|c cs IH]; intros r vs j Hh Hrun Hj Hacq Hv;
    [done |].
  apply run_cons in Hrun as (v & r1 & vs0 & Hc & Hrun & ->).
  destruct (releases_dec h c) as [Hrel | Hrel].
  - destruct j as [|j].
    + simpl in Hj. injection Hj as ->.
      destruct Hacq as [-> | ->], Hrel as [[=] | [=]].
    + exists 0%nat, c. split_and!; [lia | done | done].
  - destruct (invoke_keeps_held _ _ _ _ _ h Hh Hc Hrel) as [Hh1 Hfalse].
    destruct j as [|j].
    + simpl in Hj, Hv. injection Hj as ->. injection Hv as ->.
      by specialize (Hfalse Hacq).
    + destruct (IH r1 vs0 j Hh1 Hrun Hj Hacq Hv) as (k & ck & Hk & Hck & Hr).
      exists (S k), ck. split_and!; [lia | done | done].
Qed.

Lemma acquired_is_held fuel c r r' h :
  acquires h c -> invoke Native fuel c r = Returned (VBool true) r' ->
  s_SpinLockMap r' !! h = Some true.
Proof.
  intros [-> | ->]; unfold invoke;
    intros (a & r0 & Hc & Hret)%bind_returned;
    unfold ret in Hret; injection Hret as -> <-.
  - by apply LockImpl_returns_true in Hc as (_ & _ & Hset).
  - simpl in Hc. destruct (s_SpinLockMap r !! h) as [b|] eqn:Hh;
      [| unfold_calls; by rewrite Hh in Hc].
    rewrite (TryLockImpl_present r h b Hh) in Hc. injection Hc as _ <-.
    simpl. by rewrite lookup_insert_eq.
Qed.

(** X9. Mutual exclusion along a run: from any state, if two calls of a run
    that returns both took the token [h] ([Lock] or [TryLock] returning
    true), then between them the run has an [Unlock] or a [DestroySpinLock]
    on [h]. *)
Theorem second_acquire_needs_release (fuel : nat) (cs : list Call)
    (r0 r : Registry) (vs : list Value) (h : Z) (i j : nat) (ci cj : Call) :
  run Native fuel cs r0 = Returned vs r ->
  (i < j)%nat ->
  cs !! i = Some ci -> acquires h ci -> vs !! i = Some (VBool true) ->
  cs !! j = Some cj -> acquires h cj -> vs !! j = Some (VBool true) ->
  exists k ck, (i < k < j)%nat /\ cs !! k = Some ck /\ releases h ck.
Proof.
  revert r0 vs i j. induction cs as [|c cs IH];
    intros r0 vs i j Hrun Hij Hi Hai Hvi Hj Haj Hvj; [done |].
  apply run_cons in Hrun as (v & r1 & vs0 & Hc & Hrun & ->).
  destruct j as [|j]; [lia |]. simpl in Hj, Hvj.
  destruct i as [|i].
  - simpl in Hi, Hvi. injection Hi as ->. injection Hvi as ->.
    pose proof (acquired_is_held _ _ _ _ _ Hai Hc) as Hheld.
    destruct (held_needs_release _ _ _ _ _ _ _ _ Hheld Hrun Hj Haj Hvj)
      as (k & ck & Hk & Hck & Hr).
    exists (S k), ck. split_and!; [lia | lia | done | done].
  - simpl in Hi, Hvi.
    destruct (IH r1 vs0 i j Hrun ltac:(lia) Hi Hai Hvi Hj Haj Hvj)
      as (k & ck & Hk & Hck & Hr).
    exists (S k), ck. split_and!; [lia | lia | done | done].
Qed.

Lemma second_acquire_needs_release_witness :
  exists k ck, (1 < k < 3)%nat /\
    [CallCreateSpinLock; CallTryLock 2; CallUnlock 2; CallLock 2] !! k = Some ck /\
    releases 2 ck.
Proof.
  apply (second_acquire_needs_release 1
           [CallCreateSpinLock; CallTryLock 2; CallUnlock 2; CallLock 2]
           process_start one_locked_token
           [VHandle 2; VBool true; VVoid; VBool true] 2 1 3
           (CallTryLock 2) (CallLock 2)).
  - vm_compute. reflexivity.
  - lia.
  - reflexivity.
  - by right.
  - reflexivity.
  - reflexivity.
  - by left.
  - reflexivity.
Defined.

(** *** Handle values *)

Lemma handles_lookup vs i h : vs !! i = Some (VHandle h) -> h ∈ handles vs.
Proof.
  intros Hi. unfold handles. apply list_elem_of_omap.
  exists (VHandle h). split; [| done]. apply list_elem_of_lookup. eauto.
Qed.

(** X10. Along any run of calls from process start that returns, with the
    counter not run out, the k-th [CreateSpinLock] returns k + 1: the handles
    are 2, 3, 4, ... in order, whatever other calls come in between.  The
    counter ends at the last handle given out, and every handle in the table
    lies between 2 and the counter. *)
Theorem handles_count_up_from_two (fuel : nat) (cs : list Call)
    (vs : list Value) (r : Registry) :
  run Native fuel cs process_start = Returned vs r ->
  creations cs <= INT64_MAX - 1 ->
  handles vs = seqZ 2 (creations cs) /\
  s_NextKey r = 1 + creations cs /\
  (forall h, h ∈ dom (s_SpinLockMap r) -> 2 <= h <= s_NextKey r).
Proof.
  intros Hrun Hle.
  pose proof (run_returns fuel cs process_start vs r keys_issued_start) as Hret.
  destruct Hret as ([_ Hkeys] & Hn & Hvs); [simpl; lia | done |].
  simpl in Hn, Hvs. split_and!; [done | done |].
  intros h Hin. split; [| by apply Hkeys].
  apply (run_live_handles _ _ _ _ _ h Hrun) in Hin as [[Hin _] | (i & _ & Hv & _)].
  - simpl in Hin. rewrite dom_empty_L in Hin. by apply not_elem_of_empty in Hin.
  - apply handles_lookup in Hv. rewrite Hvs in Hv.
    apply elem_of_seqZ in Hv. lia.
Qed.

Lemma handles_count_up_from_two_witness :
  handles [VHandle 2; VBool true; VVoid; VBool true]
    = seqZ 2 (creations [CallCreateSpinLock; CallTryLock 2; CallUnlock 2; CallLock 2]) /\
  s_NextKey one_locked_token
    = 1 + creations [CallCreateSpinLock; CallTryLock 2; CallUnlock 2; CallLock 2] /\
  (forall h, h ∈ dom (s_SpinLockMap one_locked_token) ->
     2 <= h <= s_NextKey one_locked_token).
Proof.
  apply (handles_count_up_from_two 1
           [CallCreateSpinLock; CallTryLock 2; CallUnlock 2; CallLock 2]
           [VHandle 2; VBool true; VVoid; VBool true] one_locked_token).
  - vm_compute. reflexivity.
  - vm_compute. discriminate.
Defined.

(** *** The Emscripten build *)


End SpinlockMore.

(** ** The console writer *)

Module PrintWrapperMore.

Import Byte.
Import PrintWrapper ConsoleCalls PrintWrapperFacts.

(** *** [%.*s] at the ends of the buffer *)

Lemma is_nul_true c : is_nul c = true <-> c = x00.
Proof.
  unfold is_nul. split.
  - apply Byte.byte_dec_bl.
  - intros ->. reflexivity.
Qed.

Lemma conv_s_unbounded (mem : list byte) :
  (x00 ∈ mem -> conv_s None mem = Some (before_nul mem)) /\
  (x00 ∉ mem -> conv_s None mem = None).
Proof.
  induction mem as [|c mem [IHin IHout]]; simpl.
  - split; [by intros ?%elem_of_nil | done].
  - destruct (is_nul c) eqn:E.
    + apply is_nul_true in E as ->. split; [done |].
      intros Hout. exfalso. apply Hout. by left.
    + assert (c <> x00) as Hc by (intros ->; by vm_compute in E).
      split.
      * intros Hin. apply elem_of_cons in Hin as [Heq | Hin]; [congruence |].
        by rewrite IHin.
      * intros Hout. rewrite IHout; [done |]. intros Hin. apply Hout. by right.
Qed.

Lemma conv_s_bounded (k : nat) (mem : list byte) :
  ((k <= length mem)%nat \/ x00 ∈ mem ->
     conv_s (Some k) mem = Some (before_nul (take k mem))) /\
  (~ ((k <= length mem)%nat \/ x00 ∈ mem) -> conv_s (Some k) mem = None).
Proof.
  revert k. induction mem as [|c mem IH]; intros [|k]; simpl.
  - split; [done |]. intros H. exfalso. apply H. left. lia.
  - split; [| done]. intros [H | H%elem_of_nil]; [lia | done].
  - split; [done |]. intros H. exfalso. apply H. left. lia.
  - destruct (IH k) as [IHin IHout].
    destruct (is_nul c) eqn:E.
    + apply is_nul_true in E as ->. split; [done |].
      intros H. exfalso. apply H. right. by left.
    + assert (c <> x00) as Hc by (intros ->; by vm_compute in E).
      split.
      * intros H. rewrite IHin; [done |].
        destruct H as [H | H]; [left; lia |].
        apply elem_of_cons in H as [Heq | H]; [congruence | by right].
      * intros H. rewrite IHout; [done |].
        intros [H' | H']; apply H; [left; lia | right; by right].
Qed.

Section Stdio.

Variable drain : BufMode -> Z -> list byte -> nat.

(** X12. [ConsoleWrite] stays within the bytes readable at [byteBuffer]
    exactly when [numBytes] is between 0 and their number or one of them is
    zero; otherwise [printf] reads past them looking for the end of the
    string.  In particular a negative [numBytes] is no length at all. *)
Theorem ConsoleWrite_reads_within_buffer_iff
    (b : list byte) (n newLine : Z) (stdout : Stream) :
  is_Some (ConsoleWrite drain b n newLine stdout) <->
  0 <= n <= Z.of_nat (length b) \/ x00 ∈ b.
Proof.
  unfold ConsoleWrite, precision_of.
  destruct (n <? 0) eqn:En.
  - destruct (decide (x00 ∈ b)) as [Hin | Hout].
    + rewrite (proj1 (conv_s_unbounded b) Hin). simpl. split; [by right | by eexists].
    + rewrite (proj2 (conv_s_unbounded b) Hout). simpl. split.
      * by intros [? ?].
      * intros [H | H]; [lia | done].
  - destruct (decide ((Z.to_nat n <= length b)%nat \/ x00 ∈ b)) as [Hok | Hno].
    + rewrite (proj1 (conv_s_bounded _ b) Hok). simpl. split; [| by eexists].
      intros _. destruct Hok as [H | H]; [left; lia | by right].
    + rewrite (proj2 (conv_s_bounded _ b) Hno). simpl. split.
      * by intros [? ?].
      * intros [H | H]; exfalso; apply Hno; [left; lia | by right].
Qed.

(** X13. With a negative [numBytes] and a zero byte in the buffer,
    [ConsoleWrite] writes the whole string up to that zero byte, however
    long, and then the line end: the precision of [%.*s] is dropped. *)
Theorem ConsoleWrite_negative_length_writes_whole_string
    (b : list byte) (n newLine : Z) (stdout : Stream) :
  n < 0 -> x00 ∈ b ->
  exists stdout',
    ConsoleWrite drain b n newLine stdout = Some stdout' /\
    written stdout' =
      written stdout ++ before_nul b ++ (if newLine =? 0 then [] else [x0a]).
Proof.
  intros Hn Hin. unfold ConsoleWrite, precision_of.
  destruct (n <? 0) eqn:En; [| lia].
  rewrite (proj1 (conv_s_unbounded b) Hin). simpl.
  eexists. split; [done |]. apply written_fputs.
Qed.

(** *** Any order of the four calls *)

Lemma written_console_call c s s' :
  console_call drain c s = Some s' ->
  match c with
  | CallConsoleWrite w =>
      exists text, conv_s (precision_of (w_numBytes w)) (w_buffer w) = Some text /\
                   written s' = written s ++ text ++ line_end (w_newLine w)
  | _ => written s' = written s
  end.
Proof.
  destruct c as [w| | |]; simpl.
  - apply ConsoleWrite_written.
  - intros [= <-]. apply written_setvbuf.
  - intros [= <-]. apply written_fflush.
  - intros [= <-]. apply written_fflush.
Qed.

Lemma console_calls_written cs s :
  written <$> console_calls drain cs s
    = unbuffered_writes (writes_of cs) (written s).
Proof.
  revert s. induction cs as [|c cs IH]; intros s; [done |].
  simpl. destruct (console_call drain c s) as [s'|] eqn:Hc; simpl.
  - rewrite IH. apply written_console_call in Hc.
    destruct c as [w| | |]; simpl; try (by rewrite Hc).
    destruct Hc as (text & -> & ->). done.
  - destruct c as [w| | |]; try done. simpl in *.
    unfold ConsoleWrite in Hc.
    by destruct (conv_s (precision_of (w_numBytes w)) (w_buffer w)).
Qed.

(** X14. However [BeginBatchConsoleWrite], [Flush] and
    [EndBatchConsoleWrite] are mixed with the writes, and whenever the C
    library empties its buffer, no byte is lost, repeated or reordered: once
    [EndBatchConsoleWrite] has run, nothing is pending and the device holds
    what it would hold had each [ConsoleWrite] gone straight to it. *)
Theorem control_calls_do_not_change_output (cs : list ConsoleCall) (stdout : Stream) :
  (fun s => (delivered (EndBatchConsoleWrite s), pending (EndBatchConsoleWrite s)))
      <$> console_calls drain cs stdout
    = (fun out => (out, [])) <$> unbuffered_writes (writes_of cs) (written stdout).
Proof.
  rewrite <- console_calls_written.
  by destruct (console_calls drain cs stdout).
Qed.

(** [Flush] and [EndBatchConsoleWrite] do the same thing, and doing it
    again changes nothing: the stream is left with all it was given
    delivered, nothing pending, and its buffering mode and size as set. *)
Lemma flush_is_idempotent (stdout : Stream) :
  EndBatchConsoleWrite stdout = Flush stdout /\
  Flush (Flush stdout) = Flush stdout /\
  delivered (Flush stdout) = written stdout /\
  pending (Flush stdout) = [] /\
  mode (Flush stdout) = mode stdout /\
  capacity (Flush stdout) = capacity stdout.
Proof.
  unfold EndBatchConsoleWrite, Flush, fflush, written. simpl.
  by rewrite app_nil_r.
Qed.

End Stdio.

Lemma ConsoleWrite_negative_length_writes_whole_string_witness :
  exists stdout',
    ConsoleWrite drain_usual [x68; x69; x00; x21] (-1) 1 stdout_at_start
      = Some stdout' /\
    written stdout' =
      written stdout_at_start ++ before_nul [x68; x69; x00; x21]
        ++ (if 1 =? 0 then [] else [x0a]).
Proof.
  apply (ConsoleWrite_negative_length_writes_whole_string drain_usual
           [x68; x69; x00; x21] (-1) 1 stdout_at_start).
  - lia.
  - repeat constructor.
Defined.

End PrintWrapperMore.

(** ** The timestamp formatters *)

Module TimeStampMore.

Import TimeStamp TimeStampRanges TimeStampFacts.

(** *** Fields of fixed width *)

Lemma forallb_seqZ (f : Z -> bool) (m n v : Z) :
  forallb f (seqZ m n) = true -> m <= v < m + n -> f v = true.
Proof.
  intros Hall Hv. rewrite forallb_forall in Hall. apply Hall.
  apply list_elem_of_In, elem_of_seqZ. lia.
Qed.

Lemma years_print_as_4_digits : forallb (prints_as_digits 4) (seqZ 0 10000) = true.
Proof. vm_compute. reflexivity. Qed.

Lemma fields_print_as_2_digits : forallb (prints_as_digits 2) (seqZ 0 100) = true.
Proof. vm_compute. reflexivity. Qed.

Lemma millis_print_as_3_digits : forallb (prints_as_digits 3) (seqZ 0 1000) = true.
Proof. vm_compute. reflexivity. Qed.

Lemma negative_millis_print_as_minus_3_digits :
  forallb (prints_as_minus_digits 3) (seqZ (-999) 999) = true.
Proof. vm_compute. reflexivity. Qed.

Lemma prints_as_digits_spec p v :
  prints_as_digits p v = true ->
  length (conv_d p v) = p /\ Forall (fun c => is_digit c = true) (conv_d p v).
Proof.
  unfold prints_as_digits. intros [Hlen Hall]%andb_true_iff.
  apply Nat.eqb_eq in Hlen. split; [done |].
  apply Forall_forall. intros c Hc%list_elem_of_In.
  rewrite forallb_forall in Hall. by apply Hall.
Qed.

Lemma prints_as_minus_digits_spec p v :
  prints_as_minus_digits p v = true ->
  exists ds, conv_d p v = "-"%char :: ds /\ length ds = p.
Proof.
  unfold prints_as_minus_digits. destruct (conv_d p v) as [|c ds]; [done |].
  intros [[Hc Hlen]%andb_true_iff _]%andb_true_iff.
  apply Ascii.eqb_eq in Hc as ->. apply Nat.eqb_eq in Hlen. eauto.
Qed.

Lemma millis_of_nonnegative tsNano :
  0 <= tsNano ->
  0 <= wrap32 (Z.quot (Z.rem tsNano 1000000000) 1000000) < 1000.
Proof.
  intros Ht. pose proof (Z.rem_bound_pos tsNano 1000000000 Ht ltac:(lia)) as Hr.
  assert (0 <= Z.quot (Z.rem tsNano 1000000000) 1000000) by (apply Z.quot_pos; lia).
  assert (Z.quot (Z.rem tsNano 1000000000) 1000000 < 1000)
    by (apply Z.quot_lt_upper_bound; lia).
  rewrite wrap32_small by (unfold INT_MAX; lia). lia.
Qed.

Lemma millis_of_negative tsNano :
  Z.rem tsNano 1000000000 <= -1000000 ->
  -999 <= wrap32 (Z.quot (Z.rem tsNano 1000000000) 1000000) <= -1.
Proof.
  intros Hr.
  assert (tsNano <= 0) as Ht.
  { destruct (Z.le_gt_cases tsNano 0) as [|Hpos]; [done |].
    pose proof (Z.rem_bound_pos tsNano 1000000000 ltac:(lia) ltac:(lia)). lia. }
  pose proof (Z.rem_bound_pos_neg tsNano 1000000000 ltac:(lia) Ht) as Hb.
  pose proof (Z.quot_le_mono (Z.rem tsNano 1000000000) (-1000000) 1000000
                ltac:(lia) Hr) as Hup.
  pose proof (Z.quot_le_mono (-999999999) (Z.rem tsNano 1000000000) 1000000
                ltac:(lia) ltac:(lia)) as Hlow.
  change (Z.quot (-1000000) 1000000) with (-1) in Hup.
  change (Z.quot (-999999999) 1000000) with (-999) in Hlow.
  rewrite wrap32_small by (unfold INT_MAX; lia). lia.
Qed.

(** Seven fields of 4, 2, 2, 2, 2, 2 and [k] characters put together as the
    format does. *)
Lemma timestamp_layout (Y Mo D H Mi S Ms : list ascii) (k : nat) :
  length Y = 4%nat -> length Mo = 2%nat -> length D = 2%nat ->
  length H = 2%nat -> length Mi = 2%nat -> length S = 2%nat ->
  length Ms = k ->
  let text := Y ++ ["-"%char] ++ Mo ++ ["-"%char] ++ D ++ [" "%char] ++ H
                ++ [":"%char] ++ Mi ++ [":"%char] ++ S ++ [","%char] ++ Ms in
  length text = (20 + k)%nat /\
  text !! 4%nat = Some "-"%char /\ text !! 7%nat = Some "-"%char /\
  text !! 10%nat = Some " "%char /\ text !! 13%nat = Some ":"%char /\
  text !! 16%nat = Some ":"%char /\ text !! 19%nat = Some ","%char /\
  drop 20 text = Ms /\
  List.filter is_digit (take 16 text) = List.filter is_digit (Y ++ Mo ++ D ++ H ++ Mi).
Proof.
  intros HY HMo HD HH HMi HS HMs.
  destruct Y as [|y1 [|y2 [|y3 [|y4 [|]]]]]; try discriminate HY.
  destruct Mo as [|m1 [|m2 [|]]]; try discriminate HMo.
  destruct D as [|d1 [|d2 [|]]]; try discriminate HD.
  destruct H as [|h1 [|h2 [|]]]; try discriminate HH.
  destruct Mi as [|i1 [|i2 [|]]]; try discriminate HMi.
  destruct S as [|s1 [|s2 [|]]]; try discriminate HS.
  subst k. simpl. split_and!; reflexivity.
Qed.

Lemma filter_digits_id (l : list ascii) :
  Forall (fun c => is_digit c = true) l -> List.filter is_digit l = l.
Proof. induction 1 as [|c l Hc _ IH]; simpl; [done |]. by rewrite Hc, IH. Qed.

Section Platform.

Variable localtime : Z -> option tm.
Variable snprintf_checks_size : bool.

Abbreviation snprintf := (snprintf snprintf_checks_size).

(** *** What reaches the buffer *)

Lemma snprintf_stores_within buffer n text :
  Forall (fun c => c <> NUL) text ->
  0 < n <= INT_MAX -> n <= Z.of_nat (length buffer) ->
  stores_text_within
    match snprintf buffer (to_size_t n) text with
    | Done length buffer' => Done (if length <? 0 then 0 else length) buffer'
    | NullDereference => NullDereference
    | BufferOverrun => BufferOverrun
    end text buffer n.
Proof.
  intros Hnul Hn Hbuf. unfold stores_text_within.
  rewrite to_size_t_int by lia.
  rewrite snprintf_stores by lia.
  assert ((Z.of_nat (length text) <? 0) = false) as ->
    by apply Z.ltb_ge, Nat2Z.is_nonneg.
  set (t := take (Z.to_nat (n - 1)) text).
  assert (length t <= Z.to_nat (n - 1))%nat as Ht
    by (unfold t; rewrite length_take; lia).
  eexists. split; [done |].
  assert (c_str (t ++ NUL :: drop (S (length t)) buffer) = t) as Hstr
    by (apply c_str_app_NUL; by apply Forall_take).
  split_and!.
  - rewrite length_app. simpl. rewrite length_drop. lia.
  - done.
  - rewrite (cons_middle NUL), (assoc_L (++)).
    rewrite drop_app_ge by (rewrite length_app; simpl; lia).
    rewrite drop_drop, length_app. simpl. f_equal. lia.
  - intros Hfit. rewrite Hstr. unfold t. apply take_ge. lia.
Qed.

Lemma timestamp_stored tsNano buffer bufferSize tptr :
  localtime (Z.quot tsNano 1000000000) = Some tptr ->
  0 < bufferSize <= INT_MAX ->
  bufferSize <= Z.of_nat (length buffer) ->
  stores_text_within
    (GetFormattedTimeStampString localtime snprintf_checks_size
       tsNano buffer bufferSize)
    (timestamp_text tptr tsNano) buffer bufferSize.
Proof.
  intros Hlt Hn Hbuf. unfold GetFormattedTimeStampString. rewrite Hlt.
  apply snprintf_stores_within; [apply timestamp_text_not_NUL | done..].
Qed.

Lemma filename_stored tsNano buffer bufferSize tptr :
  localtime (Z.quot tsNano 1000000000) = Some tptr ->
  0 < bufferSize <= INT_MAX ->
  bufferSize <= Z.of_nat (length buffer) ->
  stores_text_within
    (GetFormattedTimeStampStringForFileNameNative localtime snprintf_checks_size
       tsNano buffer bufferSize)
    (filename_text tptr) buffer bufferSize.
Proof.
  intros Hlt Hn Hbuf. unfold GetFormattedTimeStampStringForFileNameNative.
  rewrite Hlt.
  apply snprintf_stores_within; [apply filename_text_not_NUL | done..].
Qed.

(** X15. With [localtime] succeeding and a buffer of [bufferSize] bytes, one
    at least, both formatters return the length of the formatted text and
    leave in the buffer a NUL-terminated string, the first [bufferSize - 1]
    characters of the text, which is the whole text when it fits; the buffer
    keeps its size and no byte from [bufferSize] on is touched. *)
Theorem formatters_store_within_bufferSize
    (tsNano : Z) (buffer : list ascii) (bufferSize : Z) (tptr : tm) :
  localtime (Z.quot tsNano 1000000000) = Some tptr ->
  0 < bufferSize <= INT_MAX ->
  bufferSize <= Z.of_nat (length buffer) ->
  stores_text_within
    (GetFormattedTimeStampString localtime snprintf_checks_size
       tsNano buffer bufferSize)
    (timestamp_text tptr tsNano) buffer bufferSize /\
  stores_text_within
    (GetFormattedTimeStampStringForFileNameNative localtime snprintf_checks_size
       tsNano buffer bufferSize)
    (filename_text tptr) buffer bufferSize.
Proof.
  intros Hlt Hn Hbuf. split; [by apply timestamp_stored | by apply filename_stored].
Qed.

(** *** What is returned *)

Lemma snprintf_refused buffer n text buffer' :
  snprintf buffer n text = Done (-1) buffer' ->
  snprintf_checks_size = true /\ INT_MAX < n /\ buffer' = buffer.
Proof.
  unfold TimeStamp.snprintf.
  destruct (snprintf_checks_size && (INT_MAX <? n)) eqn:E.
  - intros [= <-]. apply andb_true_iff in E as [-> E]. split_and!; [done | lia | done].
  - destruct (n =? 0); [intros [= H _]; lia |].
    destruct (_ <? _)%nat; [done |]. intros [= H _]. lia.
Qed.

Lemma to_size_t_above_INT_MAX n :
  - 2 ^ 31 <= n <= INT_MAX -> INT_MAX < to_size_t n -> n < 0.
Proof.
  intros Hn Hbig. destruct (Z.lt_ge_cases n 0) as [|Hnn]; [done |].
  rewrite to_size_t_int in Hbig by lia. lia.
Qed.

(** X16. Whatever they are given, the formatters never return a negative
    length and never a length between 1 and 22 (between 1 and 11 for the file
    name form): a return of 0 happens only when [bufferSize] is negative and
    the C library refuses the size, and then the buffer is left as it was. *)
Theorem formatters_return_zero_or_full_length
    (tsNano : Z) (buffer : list ascii) (bufferSize n : Z) (buffer' : list ascii) :
  - 2 ^ 31 <= bufferSize <= INT_MAX ->
  (GetFormattedTimeStampString localtime snprintf_checks_size
     tsNano buffer bufferSize = Done n buffer' ->
   23 <= n \/
   (n = 0 /\ bufferSize < 0 /\ snprintf_checks_size = true /\ buffer' = buffer)) /\
  (GetFormattedTimeStampStringForFileNameNative localtime snprintf_checks_size
     tsNano buffer bufferSize = Done n buffer' ->
   12 <= n \/
   (n = 0 /\ bufferSize < 0 /\ snprintf_checks_size = true /\ buffer' = buffer)).
Proof.
  intros Hint. split.
  - unfold GetFormattedTimeStampString.
    destruct (localtime _) as [tptr|]; [| done].
    destruct (snprintf _ _ _) as [len b| |] eqn:E; [| done..].
    intros [= <- <-].
    destruct (snprintf_returns _ _ _ _ _ _ E) as [[-> ->] | ->].
    + right. apply snprintf_refused in E as (Hchk & Hbig & _).
      split_and!; [done | by apply to_size_t_above_INT_MAX | done | done].
    + left. pose proof (format_timestamp_length
                          (wrap32 (tm_year tptr + 1900)) (wrap32 (tm_mon tptr + 1))
                          (tm_mday tptr) (tm_hour tptr) (tm_min tptr) (tm_sec tptr)
                          (wrap32 (Z.quot (Z.rem tsNano 1000000000) 1000000))) as H.
      destruct (_ <? 0) eqn:E0; lia.
  - unfold GetFormattedTimeStampStringForFileNameNative.
    destruct (localtime _) as [tptr|]; [| done].
    destruct (snprintf _ _ _) as [len b| |] eqn:E; [| done..].
    intros [= <- <-].
    destruct (snprintf_returns _ _ _ _ _ _ E) as [[-> ->] | ->].
    + right. apply snprintf_refused in E as (Hchk & Hbig & _).
      split_and!; [done | by apply to_size_t_above_INT_MAX | done | done].
    + left. pose proof (format_filename_length
                          (wrap32 (tm_year tptr + 1900)) (wrap32 (tm_mon tptr + 1))
                          (tm_mday tptr) (tm_hour tptr) (tm_min tptr)) as H.
      destruct (_ <? 0) eqn:E0; lia.
Qed.

(** *** Calendar fields in range *)

Lemma calendar_fields_print tptr :
  in_calendar_range tptr ->
  prints_as_digits 4 (wrap32 (tm_year tptr + 1900)) = true /\
  prints_as_digits 2 (wrap32 (tm_mon tptr + 1)) = true /\
  prints_as_digits 2 (tm_mday tptr) = true /\
  prints_as_digits 2 (tm_hour tptr) = true /\
  prints_as_digits 2 (tm_min tptr) = true /\
  prints_as_digits 2 (tm_sec tptr) = true.
Proof.
  intros (Hy & Hmo & Hd & Hh & Hmi & Hs).
  rewrite !wrap32_small by (unfold INT_MAX; lia).
  split_and!;
    first [ apply (forallb_seqZ _ 0 10000 _ years_print_as_4_digits)
          | apply (forallb_seqZ _ 0 100 _ fields_print_as_2_digits) ]; lia.
Qed.

Lemma timestamp_text_layout tptr tsNano (k : nat) :
  in_calendar_range tptr ->
  length (conv_d 3 (wrap32 (Z.quot (Z.rem tsNano 1000000000) 1000000))) = k ->
  let text := timestamp_text tptr tsNano in
  length text = (20 + k)%nat /\
  text !! 4%nat = Some "-"%char /\ text !! 7%nat = Some "-"%char /\
  text !! 10%nat = Some " "%char /\ text !! 13%nat = Some ":"%char /\
  text !! 16%nat = Some ":"%char /\ text !! 19%nat = Some ","%char /\
  drop 20 text = conv_d 3 (wrap32 (Z.quot (Z.rem tsNano 1000000000) 1000000)) /\
  List.filter is_digit (take 16 text) = filename_text tptr.
Proof.
  intros Hr Hk.
  destruct (calendar_fields_print tptr Hr) as (Hy & Hmo & Hd & Hh & Hmi & Hs).
  apply prints_as_digits_spec in Hy as [Ly Dy], Hmo as [Lmo Dmo], Hd as [Ld Dd],
    Hh as [Lh Dh], Hmi as [Lmi Dmi], Hs as [Ls _].
  pose proof (timestamp_layout _ _ _ _ _ _ _ k Ly Lmo Ld Lh Lmi Ls Hk) as Hlay.
  cbv zeta in Hlay. unfold timestamp_text, format_timestamp.
  destruct Hlay as (H1 & H2 & H3 & H4 & H5 & H6 & H7 & H8 & H9).
  split_and!; try done.
  rewrite H9. unfold filename_text, format_filename.
  apply filter_digits_id. rewrite !Forall_app. done.
Qed.

(** X17. For calendar fields of the years 0 to 9999 and a timestamp that is
    not negative, [GetFormattedTimeStampString] given 24 bytes or more
    returns exactly 23 and the buffer holds the whole text, with its
    separators at fixed places: [-] at 4 and 7, a space at 10, [:] at 13
    and 16, [,] at 19, and three digits of milliseconds after it. *)
Theorem timestamp_is_23_characters
    (tsNano : Z) (buffer : list ascii) (bufferSize : Z) (tptr : tm) :
  localtime (Z.quot tsNano 1000000000) = Some tptr ->
  in_calendar_range tptr ->
  0 <= tsNano ->
  24 <= bufferSize <= INT_MAX ->
  bufferSize <= Z.of_nat (length buffer) ->
  exists buffer',
    GetFormattedTimeStampString localtime snprintf_checks_size
      tsNano buffer bufferSize = Done 23 buffer' /\
    c_str buffer' = timestamp_text tptr tsNano /\
    length (c_str buffer') = 23%nat /\
    c_str buffer' !! 4%nat = Some "-"%char /\
    c_str buffer' !! 7%nat = Some "-"%char /\
    c_str buffer' !! 10%nat = Some " "%char /\
    c_str buffer' !! 13%nat = Some ":"%char /\
    c_str buffer' !! 16%nat = Some ":"%char /\
    c_str buffer' !! 19%nat = Some ","%char /\
    Forall (fun c => is_digit c = true) (drop 20 (c_str buffer')).
Proof.
  intros Hlt Hr Hts Hn Hbuf.
  pose proof (millis_of_nonnegative tsNano Hts) as Hms.
  assert (prints_as_digits 3
            (wrap32 (Z.quot (Z.rem tsNano 1000000000) 1000000)) = true) as Hp
    by (apply (forallb_seqZ _ 0 1000 _ millis_print_as_3_digits); lia).
  apply prints_as_digits_spec in Hp as [Lms Dms].
  destruct (timestamp_text_layout tptr tsNano 3 Hr Lms)
    as (Hlen & H4 & H7 & H10 & H13 & H16 & H19 & Hdrop & _).
  destruct (timestamp_stored tsNano buffer bufferSize tptr Hlt ltac:(lia) Hbuf)
    as (buffer' & Hret & _ & _ & _ & Hfit).
  rewrite Hlen in Hret. exists buffer'. split; [exact Hret |].
  rewrite Hfit by lia. split_and!; try done. by rewrite Hdrop.
Qed.

(** X18. For the same calendar fields, [GetFormattedTimeStampStringForFileNameNative]
    given 13 bytes or more returns exactly 12; the text is twelve digits,
    and they are the digits of the first sixteen characters of the timestamp
    text, the date and the hour and minute, with the separators left out. *)
Theorem filename_is_12_digits_of_timestamp
    (tsNano : Z) (buffer : list ascii) (bufferSize : Z) (tptr : tm) :
  localtime (Z.quot tsNano 1000000000) = Some tptr ->
  in_calendar_range tptr ->
  13 <= bufferSize <= INT_MAX ->
  bufferSize <= Z.of_nat (length buffer) ->
  exists buffer',
    GetFormattedTimeStampStringForFileNameNative localtime snprintf_checks_size
      tsNano buffer bufferSize = Done 12 buffer' /\
    c_str buffer' = filename_text tptr /\
    length (c_str buffer') = 12%nat /\
    Forall (fun c => is_digit c = true) (c_str buffer') /\
    c_str buffer' = List.filter is_digit (take 16 (timestamp_text tptr tsNano)).
Proof.
  intros Hlt Hr Hn Hbuf.
  destruct (timestamp_text_layout tptr tsNano _ Hr eq_refl)
    as (_ & _ & _ & _ & _ & _ & _ & _ & Hfilter).
  destruct (calendar_fields_print tptr Hr) as (Hy & Hmo & Hd & Hh & Hmi & _).
  apply prints_as_digits_spec in Hy as [Ly Dy], Hmo as [Lmo Dmo], Hd as [Ld Dd],
    Hh as [Lh Dh], Hmi as [Lmi Dmi].
  assert (length (filename_text tptr) = 12%nat) as Hlen.
  { unfold filename_text, format_filename. rewrite !length_app. lia. }
  assert (Forall (fun c => is_digit c = true) (filename_text tptr)) as Hdig.
  { unfold filename_text, format_filename. rewrite !Forall_app. done. }
  destruct (filename_stored tsNano buffer bufferSize tptr Hlt ltac:(lia) Hbuf)
    as (buffer' & Hret & _ & _ & _ & Hfit).
  rewrite Hlen in Hret. exists buffer'. split; [exact Hret |].
  rewrite Hfit by lia. by rewrite Hfilter.
Qed.

(** X19. A timestamp before the epoch whose part below the second is a
    millisecond or more has its milliseconds printed with a minus sign: for
    calendar fields of the years 0 to 9999 the text is 24 characters, not 23,
    with [-] at 20, so a buffer of 24 bytes gets only the first 23 of them
    while 24 is returned. *)
Theorem pre_epoch_millis_carry_minus_sign
    (tsNano : Z) (buffer : list ascii) (tptr : tm) :
  localtime (Z.quot tsNano 1000000000) = Some tptr ->
  in_calendar_range tptr ->
  Z.rem tsNano 1000000000 <= -1000000 ->
  24 <= Z.of_nat (length buffer) ->
  exists buffer',
    GetFormattedTimeStampString localtime snprintf_checks_size
      tsNano buffer 24 = Done 24 buffer' /\
    length (timestamp_text tptr tsNano) = 24%nat /\
    timestamp_text tptr tsNano !! 20%nat = Some "-"%char /\
    c_str buffer' = take 23 (timestamp_text tptr tsNano) /\
    c_str buffer' <> timestamp_text tptr tsNano.
Proof.
  intros Hlt Hr Hrem Hbuf.
  pose proof (millis_of_negative tsNano Hrem) as Hms.
  assert (prints_as_minus_digits 3
            (wrap32 (Z.quot (Z.rem tsNano 1000000000) 1000000)) = true) as Hp
    by (apply (forallb_seqZ _ (-999) 999 _ negative_millis_print_as_minus_3_digits);
        lia).
  apply prints_as_minus_digits_spec in Hp as (ds & Hds & Lds).
  assert (length (conv_d 3 (wrap32 (Z.quot (Z.rem tsNano 1000000000) 1000000)))
          = 4%nat) as Lms by (rewrite Hds; simpl; lia).
  destruct (timestamp_text_layout tptr tsNano 4 Hr Lms)
    as (Hlen & _ & _ & _ & _ & _ & _ & Hdrop & _).
  destruct (timestamp_stored tsNano buffer 24 tptr Hlt
              ltac:(unfold INT_MAX; lia) Hbuf)
    as (buffer' & Hret & _ & Hstr & _ & _).
  rewrite Hlen in Hret. exists buffer'. split; [exact Hret |].
  split; [exact Hlen |]. split_and!.
  - rewrite <- (Nat.add_0_r 20), <- lookup_drop, Hdrop, Hds. done.
  - exact Hstr.
  - rewrite Hstr. intros Heq. apply (f_equal length) in Heq.
    rewrite length_take, Hlen in Heq. lia.
Qed.

(** X20. A negative [bufferSize] is passed on to [snprintf] as a huge
    [size_t].  A C library that refuses such a size makes both formatters
    return 0 with the buffer untouched; one that accepts it stores the whole
    text as if the buffer had no end, past the end of a buffer that has no
    room for the text and its NUL. *)
Theorem negative_bufferSize
    (tsNano : Z) (buffer : list ascii) (bufferSize : Z) (tptr : tm) :
  localtime (Z.quot tsNano 1000000000) = Some tptr ->
  - 2 ^ 31 <= bufferSize < 0 ->
  Z.of_nat (length buffer) <= INT_MAX ->
  (GetFormattedTimeStampString localtime true tsNano buffer bufferSize
     = Done 0 buffer /\
   GetFormattedTimeStampStringForFileNameNative localtime true
     tsNano buffer bufferSize = Done 0 buffer) /\
  ((length buffer <= length (timestamp_text tptr tsNano))%nat ->
   GetFormattedTimeStampString localtime false tsNano buffer bufferSize
     = BufferOverrun) /\
  ((length buffer <= length (filename_text tptr))%nat ->
   GetFormattedTimeStampStringForFileNameNative localtime false
     tsNano buffer bufferSize = BufferOverrun).
Proof.
  intros Hlt Hn Hbuf.
  assert (to_size_t bufferSize = 2 ^ 64 + bufferSize) as Hsz.
  { unfold to_size_t. symmetry. apply Z.mod_unique_pos with (q := -1); lia. }
  assert (INT_MAX < to_size_t bufferSize) as Hbig
    by (rewrite Hsz; unfold INT_MAX; lia).
  assert (forall text, (length buffer <= length text)%nat ->
            TimeStamp.snprintf false buffer (to_size_t bufferSize) text
              = BufferOverrun) as Hover.
  { intros text Hshort. unfold TimeStamp.snprintf. simpl.
    destruct (to_size_t bufferSize =? 0) eqn:E0; [unfold INT_MAX in Hbig; lia |].
    rewrite length_app, length_take. simpl.
    destruct (_ <? _)%nat eqn:E; [done |].
    apply Nat.ltb_ge in E. unfold INT_MAX in *. lia. }
  unfold GetFormattedTimeStampString, GetFormattedTimeStampStringForFileNameNative.
  rewrite Hlt. unfold TimeStamp.snprintf at 1 2. simpl.
  assert ((INT_MAX <? to_size_t bufferSize) = true) as -> by lia.
  split; [done |].
  split; intros Hshort; by rewrite Hover.
Qed.

End Platform.

(** *** Running the formatters *)

Lemma formatters_store_within_bufferSize_witness :
  stores_text_within
    (GetFormattedTimeStampString localtime_utc false
       1700000000123456789 (repeat "x"%char 32) 32)
    (timestamp_text (utc_fields 1700000000) 1700000000123456789)
    (repeat "x"%char 32) 32 /\
  stores_text_within
    (GetFormattedTimeStampStringForFileNameNative localtime_utc false
       1700000000123456789 (repeat "x"%char 32) 32)
    (filename_text (utc_fields 1700000000)) (repeat "x"%char 32) 32.
Proof.
  apply (formatters_store_within_bufferSize localtime_utc false
           1700000000123456789 (repeat "x"%char 32) 32 (utc_fields 1700000000)).
  - vm_compute. reflexivity.
  - unfold INT_MAX. lia.
  - simpl. lia.
Defined.

Lemma formatters_return_zero_or_full_length_witness :
  (23 <= 23 \/
   (23 = 0 /\ 32 < 0 /\ false = true /\
    list_ascii_of_string "2023-11-14 22:13:20,123" ++ NUL :: repeat "x"%char 8
      = repeat "x"%char 32)) /\
  (12 <= 12 \/
   (12 = 0 /\ 32 < 0 /\ false = true /\
    list_ascii_of_string "202311142213" ++ NUL :: repeat "x"%char 19
      = repeat "x"%char 32)).
Proof.
  split.
  - apply (formatters_return_zero_or_full_length localtime_utc false
             1700000000123456789 (repeat "x"%char 32) 32 23
             (list_ascii_of_string "2023-11-14 22:13:20,123"
                ++ NUL :: repeat "x"%char 8)).
    + unfold INT_MAX. lia.
    + vm_compute. reflexivity.
  - apply (formatters_return_zero_or_full_length localtime_utc false
             1700000000123456789 (repeat "x"%char 32) 32 12
             (list_ascii_of_string "202311142213"
                ++ NUL :: repeat "x"%char 19)).
    + unfold INT_MAX. lia.
    + vm_compute. reflexivity.
Defined.

Lemma timestamp_is_23_characters_witness :
  exists buffer',
    GetFormattedTimeStampString localtime_utc false
      1700000000123456789 (repeat "x"%char 32) 32 = Done 23 buffer' /\
    c_str buffer' = timestamp_text (utc_fields 1700000000) 1700000000123456789 /\
    length (c_str buffer') = 23%nat /\
    c_str buffer' !! 4%nat = Some "-"%char /\
    c_str buffer' !! 7%nat = Some "-"%char /\
    c_str buffer' !! 10%nat = Some " "%char /\
    c_str buffer' !! 13%nat = Some ":"%char /\
    c_str buffer' !! 16%nat = Some ":"%char /\
    c_str buffer' !! 19%nat = Some ","%char /\
    Forall (fun c => is_digit c = true) (drop 20 (c_str buffer')).
Proof.
  apply (timestamp_is_23_characters localtime_utc false
           1700000000123456789 (repeat "x"%char 32) 32 (utc_fields 1700000000)).
  - vm_compute. reflexivity.
  - vm_compute. repeat split; discriminate.
  - lia.
  - unfold INT_MAX. lia.
  - simpl. lia.
Defined.

Lemma filename_is_12_digits_of_timestamp_witness :
  exists buffer',
    GetFormattedTimeStampStringForFileNameNative localtime_utc false
      1700000000123456789 (repeat "x"%char 32) 32 = Done 12 buffer' /\
    c_str buffer' = filename_text (utc_fields 1700000000) /\
    length (c_str buffer') = 12%nat /\
    Forall (fun c => is_digit c = true) (c_str buffer') /\
    c_str buffer'
      = List.filter is_digit
          (take 16 (timestamp_text (utc_fields 1700000000) 1700000000123456789)).
Proof.
  apply (filename_is_12_digits_of_timestamp localtime_utc false
           1700000000123456789 (repeat "x"%char 32) 32 (utc_fields 1700000000)).
  - vm_compute. reflexivity.
  - vm_compute. repeat split; discriminate.
  - unfold INT_MAX. lia.
  - simpl. lia.
Defined.

Lemma pre_epoch_millis_carry_minus_sign_witness :
  exists buffer',
    GetFormattedTimeStampString localtime_utc false
      (-1500000000) (repeat "x"%char 32) 24 = Done 24 buffer' /\
    length (timestamp_text (utc_fields (-1)) (-1500000000)) = 24%nat /\
    timestamp_text (utc_fields (-1)) (-1500000000) !! 20%nat = Some "-"%char /\
    c_str buffer' = take 23 (timestamp_text (utc_fields (-1)) (-1500000000)) /\
    c_str buffer' <> timestamp_text (utc_fields (-1)) (-1500000000).
Proof.
  apply (pre_epoch_millis_carry_minus_sign localtime_utc false
           (-1500000000) (repeat "x"%char 32) (utc_fields (-1))).
  - vm_compute. reflexivity.
  - vm_compute. repeat split; discriminate.
  - vm_compute. discriminate.
  - simpl. lia.
Defined.

Lemma negative_bufferSize_witness :
  (GetFormattedTimeStampString localtime_utc true
     1700000000123456789 (repeat "x"%char 10) (-1)
     = Done 0 (repeat "x"%char 10) /\
   GetFormattedTimeStampStringForFileNameNative localtime_utc true
     1700000000123456789 (repeat "x"%char 10) (-1)
     = Done 0 (repeat "x"%char 10)) /\
  GetFormattedTimeStampString localtime_utc false
    1700000000123456789 (repeat "x"%char 10) (-1) = BufferOverrun /\
  GetFormattedTimeStampStringForFileNameNative localtime_utc false
    1700000000123456789 (repeat "x"%char 10) (-1) = BufferOverrun.
Proof.
  destruct (negative_bufferSize localtime_utc
              1700000000123456789 (repeat "x"%char 10) (-1)
              (utc_fields 1700000000)) as (Hchecked & Hlong & Hfile).
  - vm_compute. reflexivity.
  - lia.
  - unfold INT_MAX. simpl. lia.
  - split; [exact Hchecked |].
    split; [apply Hlong | apply Hfile]; vm_compute; lia.
Defined.

End TimeStampMore.
